(** * MapPage: the places map view (src/pages/MapPage.jsx)

    A shallow embedding of the state and the handlers of the [MapPage]
    component: the React state hooks become fields of a record, the
    handlers become functions on the world that holds that state, the
    query cache, the remote store, the pending timers and the log of the
    calls made to the outside (query client, map widget). *)

From Stdlib Require Import QArith Qminmax Sorted.
From stdpp Require Import base list strings gmap pretty.

Open Scope string_scope.

(** ** Data model *)

(** A JavaScript number.  The page never computes with coordinates or
    zoom levels: it compares a zoom level with 13 and hands the rest
    on, so exact rationals stand for them. *)
Definition number : Type := Q.

(** [\[lat, lng\]] pairs as the page builds them. *)
Definition LatLng : Type := (number * number)%type.

(** The fields of a [Place] entity that the page reads. *)
Record Place : Type := mkPlace {
  id : string;
  latitude : number;
  longitude : number;
  category : string;
  is_favorite : bool;
  date_visited : Z
}.

Arguments mkPlace id%_string (latitude longitude)%_Q category%_string
  is_favorite date_visited%_Z.

Definition coords (p : Place) : LatLng := (latitude p, longitude p).

(** The [useState] hooks of [MapPage], in the order of the source. *)
Record View : Type := mkView {
  selectedPlace : option Place;
  showAddForm : bool;
  filterCategory : string;
  showFavoritesOnly : bool;
  mapCenter : option LatLng;
  mapZoom : option number;
  highlightedPlace : option Place;
  currentZoom : number
}.

(** The values the hooks start with. *)
Definition initialView : View :=
  {| selectedPlace := None;
     showAddForm := false;
     filterCategory := "all";
     showFavoritesOnly := false;
     mapCenter := None;
     mapZoom := None;
     highlightedPlace := None;
     currentZoom := 12%Q |}.

(** ** The visible places: [filteredPlaces] *)

Definition categoryMatch (filterCategory : string) (place : Place) : bool :=
  String.eqb filterCategory "all" || String.eqb (category place) filterCategory.

Definition favoriteMatch (showFavoritesOnly : bool) (place : Place) : bool :=
  negb showFavoritesOnly || is_favorite place.

Definition placeVisible (c : string) (f : bool) (place : Place) : bool :=
  categoryMatch c place && favoriteMatch f place.

Definition visiblePlaces (c : string) (f : bool) (places : list Place) : list Place :=
  List.filter (placeVisible c f) places.

(** [defaultCenter]: the first visible place, or lower Manhattan. *)
Definition fallbackCenter : LatLng := (407128 # 10000, - (740060 # 10000)).

Definition centerOf (visible : list Place) : LatLng :=
  match visible with
  | p :: _ => coords p
  | [] => fallbackCenter
  end.

(** View-level state setters: what the [useState] setters do to the
    state once React has applied them. *)
Definition setSelectedPlace (x : option Place) (v : View) : View :=
  mkView x (showAddForm v) (filterCategory v) (showFavoritesOnly v)
         (mapCenter v) (mapZoom v) (highlightedPlace v) (currentZoom v).

Definition setShowAddForm (x : bool) (v : View) : View :=
  mkView (selectedPlace v) x (filterCategory v) (showFavoritesOnly v)
         (mapCenter v) (mapZoom v) (highlightedPlace v) (currentZoom v).

Definition setFilterCategory (x : string) (v : View) : View :=
  mkView (selectedPlace v) (showAddForm v) x (showFavoritesOnly v)
         (mapCenter v) (mapZoom v) (highlightedPlace v) (currentZoom v).

Definition setShowFavoritesOnly (x : bool) (v : View) : View :=
  mkView (selectedPlace v) (showAddForm v) (filterCategory v) x
         (mapCenter v) (mapZoom v) (highlightedPlace v) (currentZoom v).

Definition setMapCenter (x : option LatLng) (v : View) : View :=
  mkView (selectedPlace v) (showAddForm v) (filterCategory v) (showFavoritesOnly v)
         x (mapZoom v) (highlightedPlace v) (currentZoom v).

Definition setMapZoom (x : option number) (v : View) : View :=
  mkView (selectedPlace v) (showAddForm v) (filterCategory v) (showFavoritesOnly v)
         (mapCenter v) x (highlightedPlace v) (currentZoom v).

Definition setHighlightedPlace (x : option Place) (v : View) : View :=
  mkView (selectedPlace v) (showAddForm v) (filterCategory v) (showFavoritesOnly v)
         (mapCenter v) (mapZoom v) x (currentZoom v).

Definition setCurrentZoom (x : number) (v : View) : View :=
  mkView (selectedPlace v) (showAddForm v) (filterCategory v) (showFavoritesOnly v)
         (mapCenter v) (mapZoom v) (highlightedPlace v) x.

(** ** The world around the view *)

(** A partial [Place]: the [data] argument of [Place.update].  The page
    only ever sends [is_favorite]. *)
Record PlacePatch : Type := mkPatch {
  patch_is_favorite : option bool
}.

(** Leaflet's [LatLngBounds]: the two corners, absent while the bounds
    have not been extended by any point. *)
Record Box : Type := mkBox {
  southWest : LatLng;
  northEast : LatLng
}.

Definition LatLngBounds : Type := option Box.

(** Calls that leave the component: to the query client, to the entity
    API and to the map widget. *)
Inductive Call : Type :=
  | InvalidateQueries (queryKey : list string)
  | PlaceUpdate (i : string) (data : PlacePatch)
  | PlaceList (sortKey : string)
  | FitBounds (bounds : LatLngBounds) (padding : Z * Z).

(** A pending [setTimeout]: the time it is due at, in milliseconds, and
    its callback.  The callbacks of this page only call state setters. *)
Record Timer : Type := mkTimer {
  due : nat;
  callback : View -> View
}.

(** The ['places'] entry of the query cache: [data] is [undefined]
    until the first fetch has settled. *)
Record QueryCache : Type := mkQuery {
  data : option (list Place);
  stale : bool
}.

(** The Leaflet map instance behind [mapRef]. *)
Inductive LeafletMap : Type := TheMap.

Record World : Type := mkWorld {
  view : View;
  mapRef : option LeafletMap;
  query : QueryCache;
  remote : list Place;
  now : nat;
  timers : list Timer;
  calls : list Call
}.

Definition Handler : Type := World -> World.

Definition andThen (a b : Handler) : Handler := fun w => b (a w).

Declare Scope handler_scope.
Delimit Scope handler_scope with handler.
Bind Scope handler_scope with Handler.
Notation "a ;; b" := (andThen a b)
  (at level 100, b at level 200, right associativity) : handler_scope.

(** A state setter called from a handler. *)
Definition setState (u : View -> View) : Handler := fun w =>
  mkWorld (u (view w)) (mapRef w) (query w) (remote w) (now w) (timers w) (calls w).

(** A call to the outside, appended to the log. *)
Definition call (c : Call) : Handler := fun w =>
  mkWorld (view w) (mapRef w) (query w) (remote w) (now w) (timers w) (calls w ++ [c]).

Definition setQuery (q : QueryCache) : Handler := fun w =>
  mkWorld (view w) (mapRef w) q (remote w) (now w) (timers w) (calls w).

Definition setRemote (r : list Place) : Handler := fun w =>
  mkWorld (view w) (mapRef w) (query w) r (now w) (timers w) (calls w).

(** [const { data: places = [] } = useQuery(...)] *)
Definition places (w : World) : list Place := default [] (data (query w)).

(** [filteredPlaces], as the render computes it from the cached list
    and the two filter hooks. *)
Definition filteredPlaces (w : World) : list Place :=
  visiblePlaces (filterCategory (view w)) (showFavoritesOnly (view w)) (places w).

Definition defaultCenter (w : World) : LatLng := centerOf (filteredPlaces w).

(** The props [MapContainer] is mounted with. *)
Record MapContainerProps : Type := mkProps {
  center : LatLng;
  zoom : number
}.

Definition mapContainerProps (w : World) : MapContainerProps :=
  {| center := defaultCenter w; zoom := 12%Q |}.

(** ** Timers *)

(** The timer queue is kept in firing order: a new timer goes behind
    every pending timer that is due no later than it is, so timers due
    at the same instant fire in the order they were set. *)
Fixpoint enqueue (tm : Timer) (q : list Timer) : list Timer :=
  match q with
  | [] => [tm]
  | x :: q' => if (due x <=? due tm)%nat then x :: enqueue tm q' else tm :: q
  end.

(** [setTimeout(cb, delay)] *)
Definition setTimeout (cb : View -> View) (delay : nat) : Handler := fun w =>
  mkWorld (view w) (mapRef w) (query w) (remote w) (now w)
          (enqueue (mkTimer (now w + delay) cb) (timers w)) (calls w).

(** The timers at the head of the queue that are due by time [t], and
    the ones left pending behind them. *)
Fixpoint dueTimers (t : nat) (q : list Timer) : list Timer :=
  match q with
  | [] => []
  | x :: q' => if (due x <=? t)%nat then x :: dueTimers t q' else []
  end.

Fixpoint pendingTimers (t : nat) (q : list Timer) : list Timer :=
  match q with
  | [] => []
  | x :: q' => if (due x <=? t)%nat then pendingTimers t q' else q
  end.

Definition fire (v : View) (tm : Timer) : View := callback tm v.

(** A queue is in firing order when no timer stands behind one that is
    due later. *)
Definition firingOrder (q : list Timer) : Prop :=
  StronglySorted (fun a b => due a <= due b) q.

(** [dt] milliseconds pass with no other event: every timer that has
    become due fires, in queue order. *)
Definition elapse (dt : nat) : Handler := fun w =>
  let t := now w + dt in
  mkWorld (fold_left fire (dueTimers t (timers w)) (view w))
          (mapRef w) (query w) (remote w) t
          (pendingTimers t (timers w)) (calls w).

(** ** The query client and the entity API *)

(** [queryClient.invalidateQueries(\['places'\])]: the cached list is
    kept and marked stale; the refetch that follows is an event of its
    own ([refetchPlaces]). *)
Definition invalidateQueries (queryKey : list string) : Handler := fun w =>
  (call (InvalidateQueries queryKey) ;;
   if bool_decide (queryKey = ["places"])
   then setQuery (mkQuery (data (query w)) true)
   else (fun w' => w'))%handler w.

(** Modelled from the spec: what the entity store of src/api/base44Client
    does with the partial fields of an update; a field the patch does
    not carry keeps its value. *)
Definition applyPatch (d : PlacePatch) (p : Place) : Place :=
  mkPlace (id p) (latitude p) (longitude p) (category p)
          (default (is_favorite p) (patch_is_favorite d)) (date_visited p).

(** Modelled from the spec: [base44.entities.Place.update], of
    src/api/base44Client; `update(id, partialFields)` applies the
    partial fields to the remote Place with that id.  The request
    fails when the store holds no such place. *)
Definition remoteUpdate (i : string) (d : PlacePatch) (store : list Place)
  : option (list Place) :=
  if existsb (fun q => String.eqb (id q) i) store
  then Some (map (fun q => if String.eqb (id q) i then applyPatch d q else q) store)
  else None.

(** Modelled from the spec: the descending order on [date_visited] in
    which the entity store of src/api/base44Client lists the places;
    places of the same date keep their order. *)
Fixpoint insertByDate (p : Place) (l : list Place) : list Place :=
  match l with
  | [] => [p]
  | q :: l' =>
      if (date_visited q <=? date_visited p)%Z then p :: l else q :: insertByDate p l'
  end.

(** Modelled from the spec: [base44.entities.Place.list], of
    src/api/base44Client; `list(sortKey)` returns the stored places, a
    key prefixed with `-` meaning descending order on that field.  The
    page only asks for ['-date_visited']. *)
Definition remoteList (sortKey : string) (store : list Place) : list Place :=
  if String.eqb sortKey "-date_visited"
  then foldr insertByDate [] store
  else store.

(** The [queryFn] of the ['places'] query settles. *)
Definition refetchPlaces : Handler := fun w =>
  (call (PlaceList "-date_visited") ;;
   setQuery (mkQuery (Some (remoteList "-date_visited" (remote w))) false))%handler w.

(** ** The handlers of [MapPage] *)

(** [updatePlaceMutation.mutateAsync({ id, data })]: the request goes
    out ... *)
Definition mutateAsync (i : string) (d : PlacePatch) : Handler :=
  call (PlaceUpdate i d).

(** ... and settles: the store applies it and [onSuccess] invalidates
    the ['places'] query, or the request is rejected and [onSuccess]
    does not run. *)
Definition mutationSettled (i : string) (d : PlacePatch) : Handler := fun w =>
  match remoteUpdate i d (remote w) with
  | Some store' => (setRemote store' ;; invalidateQueries ["places"])%handler w
  | None => w
  end.

Definition toggleData (place : Place) : PlacePatch :=
  {| patch_is_favorite := Some (negb (is_favorite place)) |}.

Definition handleToggleFavorite (place : Place) : Handler :=
  (mutateAsync (id place) (toggleData place) ;;
   mutationSettled (id place) (toggleData place))%handler.

Definition handlePlaceAdded (newPlace : Place) : Handler :=
  (invalidateQueries ["places"] ;;
   setState (setShowAddForm false) ;;
   setState (setMapCenter (Some (latitude newPlace, longitude newPlace))) ;;
   setState (setMapZoom (Some 15%Q)) ;;
   setTimeout (setSelectedPlace (Some newPlace)) 800)%handler.

(** The callback that [handleSearchSelect] defers:
    [setSelectedPlace(place); setHighlightedPlace(null)]. *)
Definition revealPlace (place : Place) (v : View) : View :=
  setHighlightedPlace None (setSelectedPlace (Some place) v).

Definition handleSearchSelect (place : Place) : Handler :=
  (setState (setMapCenter (Some (latitude place, longitude place))) ;;
   setState (setMapZoom (Some 16%Q)) ;;
   setState (setHighlightedPlace (Some place)) ;;
   setTimeout (revealPlace place) 1500)%handler.

(** [click: () => setSelectedPlace(place)] on a marker, and the card's
    [onClose]. *)
Definition handleMarkerClick (place : Place) : Handler :=
  setState (setSelectedPlace (Some place)).

Definition handleCloseCard : Handler :=
  setState (setSelectedPlace None).

(** Leaflet's [LatLngBounds.extend] with a point: the first point
    becomes both corners, a later one pushes the corners outwards. *)
Definition extend (b : LatLngBounds) (p : LatLng) : LatLngBounds :=
  match b with
  | None => Some (mkBox p p)
  | Some (mkBox sw ne) =>
      Some (mkBox (Qmin (fst p) (fst sw), Qmin (snd p) (snd sw))
                  (Qmax (fst p) (fst ne), Qmax (snd p) (snd ne)))
  end.

(** Leaflet's [L.latLngBounds(latlngs)]: the bounds extended by each
    point of the array in turn. *)
Definition latLngBounds (latlngs : list LatLng) : LatLngBounds :=
  fold_left extend latlngs None.

Definition recenterPadding : Z * Z := (50, 50)%Z.

Definition handleRecenter : Handler := fun w =>
  if (0 <? length (filteredPlaces w))%nat then
    let bounds := latLngBounds (map (fun p => (latitude p, longitude p)) (filteredPlaces w)) in
    match mapRef w with
    | Some _ => call (FitBounds bounds recenterPadding) w
    | None => w
    end
  else w.

(** A box covers a point list when every point lies between its
    corners, and fits it when each side of the box passes through a
    point of the list. *)
Definition covers (box : Box) (pts : list LatLng) : Prop :=
  forall pt, In pt pts ->
    (fst (southWest box) <= fst pt <= fst (northEast box))%Q
    /\ (snd (southWest box) <= snd pt <= snd (northEast box))%Q.

Definition fits (box : Box) (pts : list LatLng) : Prop :=
  (exists pt, In pt pts /\ fst (southWest box) = fst pt)
  /\ (exists pt, In pt pts /\ snd (southWest box) = snd pt)
  /\ (exists pt, In pt pts /\ fst (northEast box) = fst pt)
  /\ (exists pt, In pt pts /\ snd (northEast box) = snd pt).

(** ** Marker icons *)

(** The values a lookup in [categoryColors] can produce: a color
    string of the object itself, a member it inherits from
    [Object.prototype], or [undefined]. *)
Inductive JsValue : Type :=
  | JsUndefined
  | JsString (s : string)
  | JsInherited (key : string).

(** The property names every plain object inherits from
    [Object.prototype]. *)
Definition objectPrototypeKeys : list string :=
  ["constructor"; "hasOwnProperty"; "isPrototypeOf"; "propertyIsEnumerable";
   "toLocaleString"; "toString"; "valueOf"; "__proto__";
   "__defineGetter__"; "__defineSetter__"; "__lookupGetter__"; "__lookupSetter__"].

(** [obj\[key\]] on an object literal with string-valued own
    properties: own properties first, then the prototype. *)
Definition getProperty (own : gmap string string) (key : string) : JsValue :=
  match own !! key with
  | Some s => JsString s
  | None => if bool_decide (key ∈ objectPrototypeKeys) then JsInherited key
            else JsUndefined
  end.

Definition truthy (x : JsValue) : bool :=
  match x with
  | JsUndefined => false
  | JsString s => negb (String.eqb s EmptyString)
  | JsInherited _ => true
  end.

(** [a || b] *)
Definition orElse (a b : JsValue) : JsValue := if truthy a then a else b.

(** What a template literal prints for a value.  The text of a built-in
    function is the one the common engines print. *)
Definition toString (x : JsValue) : string :=
  match x with
  | JsUndefined => "undefined"
  | JsString s => s
  | JsInherited key =>
      if String.eqb key "__proto__" then "[object Object]"
      else "function " ++ (if String.eqb key "constructor" then "Object" else key)
           ++ "() { [native code] }"
  end.

Definition categoryColors : gmap string string :=
  <["restaurant" := "#f43f5e"]>
  (<["activity" := "#10b981"]>
  (<["bar" := "#a855f7"]>
  (<["cafe" := "#d97706"]>
  (<["landmark" := "#3b82f6"]> ∅)))).

Definition defaultColor : string := "#6b7280".

Record DivIcon : Type := mkDivIcon {
  className : string;
  html : string;
  iconSize : Z * Z;
  iconAnchor : Z * Z;
  popupAnchor : Z * Z
}.

Definition dquote : string := String (Ascii.ascii_of_nat 34) EmptyString.
Definition newline : string := String (Ascii.ascii_of_nat 10) EmptyString.

(** [ name="value"], one attribute of a tag of the icon's markup. *)
Definition attr (name value : string) : string :=
  " " ++ name ++ "=" ++ dquote ++ value ++ dquote.

Definition markerPath : string :=
  "M16 0C7.2 0 0 7.2 0 16C0 28 16 42 16 42C16 42 32 28 32 16C32 7.2 24.8 0 16 0Z".

Definition iconHtml (size height : Z) (color : JsValue) : string :=
  newline ++
  "      <div" ++ attr "style" "position: relative;" ++ ">" ++ newline ++
  "        <svg" ++ attr "width" (pretty size) ++ attr "height" (pretty height)
                 ++ attr "viewBox" "0 0 32 42" ++ attr "fill" "none"
                 ++ attr "xmlns" "http://www.w3.org/2000/svg" ++ ">" ++ newline ++
  "          <path" ++ attr "d" markerPath ++ attr "fill" (toString color) ++ "/>"
                 ++ newline ++
  "          <circle" ++ attr "cx" "16" ++ attr "cy" "16" ++ attr "r" "6"
                 ++ attr "fill" "white" ++ "/>" ++ newline ++
  "        </svg>" ++ newline ++
  "      </div>" ++ newline ++
  "    ".

(** The categories [categoryColors] maps. *)
Definition mappedCategories : list string :=
  ["restaurant"; "activity"; "bar"; "cafe"; "landmark"].

(** [zoomLevel < 13] *)
Definition isZoomedOut (zoomLevel : number) : bool :=
  match Qlt_le_dec zoomLevel 13 with
  | left _ => true
  | right _ => false
  end.

(** [createIcon(color, zoomLevel = 12)]; both sizes are even, so the
    halving of the anchor is exact. *)
Definition createIcon (color : JsValue) (zoomLevel : option number) : DivIcon :=
  let zoomLevel := default 12%Q zoomLevel in
  let size := if isZoomedOut zoomLevel then 16%Z else 32%Z in
  let height := if isZoomedOut zoomLevel then 21%Z else 42%Z in
  {| className := "custom-marker";
     html := iconHtml size height color;
     iconSize := (size, height);
     iconAnchor := (size / 2, height)%Z;
     popupAnchor := (0, - height)%Z |}.

(** [categoryColors\[place.category\] || '#6b7280'] *)
Definition markerColor (cat : string) : JsValue :=
  orElse (getProperty categoryColors cat) (JsString defaultColor).

(** The [icon] prop of a place's [Marker]. *)
Definition markerIcon (cat : string) (zoomLevel : number) : DivIcon :=
  createIcon (markerColor cat) (Some zoomLevel).

(** ** The controls of the page and its two helper components *)

(** The two handlers that defer a selection, with the delay and the
    callback each hands to [setTimeout]. *)
Inductive Deferral : Type :=
  | BySearchSelect
  | ByPlaceAdded.

Definition deferHandler (k : Deferral) (place : Place) : Handler :=
  match k with
  | BySearchSelect => handleSearchSelect place
  | ByPlaceAdded => handlePlaceAdded place
  end.

Definition deferDelay (k : Deferral) : nat :=
  match k with
  | BySearchSelect => 1500
  | ByPlaceAdded => 800
  end.

Definition deferCallback (k : Deferral) (place : Place) : View -> View :=
  match k with
  | BySearchSelect => revealPlace place
  | ByPlaceAdded => setSelectedPlace (Some place)
  end.



(** The six category buttons, in the order of the header. *)
Inductive FilterButton : Type :=
  | AllButton
  | RestaurantsButton
  | CafesButton
  | ActivityButton
  | BarButton
  | LandmarkButton.

Definition filterButtons : list FilterButton :=
  [AllButton; RestaurantsButton; CafesButton; ActivityButton; BarButton;
   LandmarkButton].

(** The category a button passes to [setFilterCategory] and compares
    [filterCategory] with. *)
Definition buttonCategory (b : FilterButton) : string :=
  match b with
  | AllButton => "all"
  | RestaurantsButton => "restaurant"
  | CafesButton => "cafe"
  | ActivityButton => "activity"
  | BarButton => "bar"
  | LandmarkButton => "landmark"
  end.

(** [onClick={() => setFilterCategory(...)}] *)
Definition handleFilterClick (b : FilterButton) : Handler :=
  setState (setFilterCategory (buttonCategory b)).

(** The [style] prop of a category button. *)
Record ButtonStyle : Type := mkButtonStyle {
  borderColor : string;
  backgroundColor : string;
  color : string
}.

Definition filterButtonStyle (filterCategory : string) (b : FilterButton)
  : ButtonStyle :=
  {| borderColor := "#536E66";
     backgroundColor :=
       if String.eqb filterCategory (buttonCategory b) then "#536E66"
       else "transparent";
     color :=
       if String.eqb filterCategory (buttonCategory b) then "#C5D6D2"
       else "#536E66" |}.

(** [{filteredPlaces.length} places] in the header. *)
Definition placesCount (w : World) : nat := length (filteredPlaces w).

(** The Add Place button and the form's [onClose]. *)
Definition handleAddPlaceClick : Handler := setState (setShowAddForm true).

Definition handleAddFormClose : Handler := setState (setShowAddForm false).

(** The props of one [Marker], with the [data-place-id] of its child. *)
Record MarkerProps : Type := mkMarker {
  key : string;
  position : LatLng;
  icon : DivIcon;
  click : Handler;
  dataPlaceId : string
}.

(** [filteredPlaces.map((place) => <Marker ... />)] *)
Definition markers (w : World) : list MarkerProps :=
  map (fun place =>
         {| key := id place;
            position := (latitude place, longitude place);
            icon := createIcon (orElse (getProperty categoryColors (category place))
                                       (JsString "#6b7280"))
                               (Some (currentZoom (view w)));
            click := setState (setSelectedPlace (Some place));
            dataPlaceId := id place |})
      (filteredPlaces w).

(** [ZoomTracker]'s [updateZoom], run on mount and on every [zoomend]
    with the zoom level the map reports. *)
Definition updateZoom (getZoom : number) : Handler :=
  setState (setCurrentZoom getZoom).

(** A [map.flyTo(center, zoom, { duration, easeLinearity })] call. *)
Record FlyTo : Type := mkFlyTo {
  flyCenter : LatLng;
  flyZoom : number;
  flyDuration : Q;
  flyEaseLinearity : Q
}.

(** The truth value of a number: zero is falsy. *)
Definition numberTruthy (z : number) : bool := negb (Qeq_bool z 0).

(** The first effect of [MapController], when it runs: it flies if
    [center && zoom], where an array is truthy and a number is unless
    it is zero. *)
Definition mapControllerFlyTo (center : option LatLng) (zoom : option number)
  : option FlyTo :=
  match center, zoom with
  | Some c, Some z =>
      if numberTruthy z then Some (mkFlyTo c z (15 # 10) (25 # 100)) else None
  | _, _ => None
  end.

(** [mapRef] is attached when [MapContainer] has created its map. *)
Definition attachMap : Handler := fun w =>
  mkWorld (view w) (Some TheMap) (query w) (remote w) (now w) (timers w) (calls w).

(** ** The page as a state machine *)

(** What can happen to the mounted page: a control of the page or of
    one of its child components is used, a request settles, the store
    is written by someone else, the map reports a zoom, time passes. *)
Inductive Event : Type :=
  | AddPlaceClick
  | AddFormClose
  | PlaceAdded (newPlace : Place)
  | SearchSelect (place : Place)
  | FilterClick (b : FilterButton)
  | MarkerClick (n : nat)
  | CardClose
  | ToggleSent (place : Place)
  | ToggleSettled (place : Place)
  | QuerySettled
  | StoreWritten (store : list Place)
  | ZoomEnd (getZoom : number)
  | MapCreated
  | Elapse (dt : nat).

(** A click on the [n]-th marker runs the [click] handler of that
    marker, if there is one. *)
Definition handleNthMarkerClick (n : nat) : Handler := fun w =>
  match markers w !! n with
  | Some m => click m w
  | None => w
  end.

Definition step (e : Event) : Handler :=
  match e with
  | AddPlaceClick => handleAddPlaceClick
  | AddFormClose => handleAddFormClose
  | PlaceAdded newPlace => handlePlaceAdded newPlace
  | SearchSelect place => handleSearchSelect place
  | FilterClick b => handleFilterClick b
  | MarkerClick n => handleNthMarkerClick n
  | CardClose => handleCloseCard
  | ToggleSent place => mutateAsync (id place) (toggleData place)
  | ToggleSettled place => mutationSettled (id place) (toggleData place)
  | QuerySettled => refetchPlaces
  | StoreWritten store => setRemote store
  | ZoomEnd getZoom => updateZoom getZoom
  | MapCreated => attachMap
  | Elapse dt => elapse dt
  end.

(** The page as it is mounted, over a store with some content. *)
Definition initialWorld (store : list Place) : World :=
  mkWorld initialView None (mkQuery None false) store 0 [] [].

Definition run (events : list Event) (w : World) : World :=
  fold_left (fun w e => step e w) events w.

(** The two callbacks the page hands to [setTimeout]. *)
Inductive pageCallback : (View -> View) -> Prop :=
  | callback_reveal (place : Place) : pageCallback (revealPlace place)
  | callback_select (place : Place) : pageCallback (setSelectedPlace (Some place)).

(** A list of timers of the page. *)
Definition pageTimers (l : list Timer) : Prop :=
  List.Forall (fun tm => pageCallback (callback tm)) l.

(** The viewport target is unset, or set with one of the two zoom
    levels the handlers use. *)
Definition targetConsistent (v : View) : Prop :=
  (mapCenter v = None /\ mapZoom v = None)
  \/ (exists c, mapCenter v = Some c
                /\ (mapZoom v = Some 15%Q \/ mapZoom v = Some 16%Q)).

(** What every state of the running page satisfies. *)
Record pageInvariant (w : World) : Prop := mkInvariant {
  inv_favorites : showFavoritesOnly (view w) = false;
  inv_category : exists b, filterCategory (view w) = buttonCategory b;
  inv_target : targetConsistent (view w);
  inv_order : firingOrder (timers w);
  inv_timers : Forall (fun tm => now w < due tm <= now w + 1500
                                 /\ pageCallback (callback tm)) (timers w);
  inv_highlight : forall p, highlightedPlace (view w) = Some p ->
                    exists d, In (mkTimer d (revealPlace p)) (timers w);
  inv_fitBounds : forall b pad, ~ In (FitBounds b pad) (calls w)
}.

(** ** Sample data *)

(** Two places as in the scenarios of the specification: a bar that is
    no favorite and a cafe that is one. *)
Definition placeBar : Place :=
  mkPlace "1" (407 # 10) (- (740 # 10)) "bar" false 20240105.

Definition placeCafe : Place :=
  mkPlace "2" (4075 # 100) (- (7399 # 100)) "cafe" true 20240212.

(** The page after its first fetch, nothing selected, the map mounted. *)
Definition worldLoaded : World :=
  mkWorld initialView (Some TheMap)
          (mkQuery (Some [placeCafe; placeBar]) false)
          [placeBar; placeCafe] 0 [] [PlaceList "-date_visited"].

(** The same page with the bar's card open. *)
Definition worldBarSelected : World :=
  setState (setSelectedPlace (Some placeBar)) worldLoaded.

(** The same page before the map widget is attached to [mapRef]. *)
Definition worldNoMap : World :=
  mkWorld initialView None
          (mkQuery (Some [placeCafe; placeBar]) false)
          [placeBar; placeCafe] 0 [] [PlaceList "-date_visited"].

(** * Properties *)

(** ** The filter *)

Section Filter.
Variables (c : string) (f : bool).

Lemma categoryMatch_spec (p : Place) :
  categoryMatch c p = true <-> c = "all" \/ category p = c.
Proof.
  unfold categoryMatch.
  rewrite orb_true_iff, !String.eqb_eq. reflexivity.
Qed.

Lemma favoriteMatch_spec (p : Place) :
  favoriteMatch f p = true <-> f = false \/ is_favorite p = true.
Proof.
  unfold favoriteMatch.
  rewrite orb_true_iff, negb_true_iff. reflexivity.
Qed.

Lemma placeVisible_spec (p : Place) :
  placeVisible c f p = true <->
  (c = "all" \/ category p = c) /\ (f = false \/ is_favorite p = true).
Proof.
  unfold placeVisible.
  rewrite andb_true_iff, categoryMatch_spec, favoriteMatch_spec. reflexivity.
Qed.

Lemma visiblePlaces_sublist (L : list Place) :
  sublist (visiblePlaces c f L) L.
Proof.
  induction L as [|p L IH]; simpl.
  - constructor.
  - destruct (placeVisible c f p).
    + now apply sublist_skip.
    + now apply sublist_cons.
Qed.

Lemma visiblePlaces_idempotent (L : list Place) :
  visiblePlaces c f (visiblePlaces c f L) = visiblePlaces c f L.
Proof.
  induction L as [|p L IH]; simpl; [reflexivity|].
  destruct (placeVisible c f p) eqn:E; simpl.
  - rewrite E. now f_equal.
  - exact IH.
Qed.
End Filter.

(** C1: for every list of places [L] and filter state [(c, f)], a place is
    in the visible list exactly when it is in [L], its category is [c] or
    [c] is ["all"], and it is a favorite or [f] is off; the visible list
    is no longer than [L]; and in the scenario of a bar that is no
    favorite and a cafe that is one, with filter [("all", true)], the
    visible list is the cafe alone. *)
Theorem visiblePlaces_exactly (L : list Place) (c : string) (f : bool) :
  (forall p, In p (visiblePlaces c f L) <->
             In p L /\ (c = "all" \/ category p = c)
                    /\ (f = false \/ is_favorite p = true))
  /\ length (visiblePlaces c f L) <= length L
  /\ (forall lat1 lng1 d1 lat2 lng2 d2,
        let bar := mkPlace "1" lat1 lng1 "bar" false d1 in
        let cafe := mkPlace "2" lat2 lng2 "cafe" true d2 in
        visiblePlaces "all" true [bar; cafe] = [cafe]).
Proof.
  split; [|split].
  - intros p. unfold visiblePlaces.
    rewrite filter_In, placeVisible_spec. reflexivity.
  - apply sublist_length, visiblePlaces_sublist.
  - reflexivity.
Qed.

(** C1, at the list of the two sample places with the cafe filter on. *)
Lemma visiblePlaces_exactly_witness :
  In placeCafe (visiblePlaces "cafe" true [placeBar; placeCafe])
  /\ ~ In placeBar (visiblePlaces "cafe" true [placeBar; placeCafe]).
Proof.
  destruct (visiblePlaces_exactly [placeBar; placeCafe] "cafe" true) as [H _].
  split.
  - apply H. split; [right; left; reflexivity|].
    split; right; reflexivity.
  - intros Hin. apply H in Hin. destruct Hin as [_ [[Hc|Hc] _]]; discriminate Hc.
Defined.

(** C6: the visible list is an order-preserving subsequence of the
    cached list, no longer than it, and it depends on nothing but the
    cached list and the two filter hooks: a render with the same list
    and the same filter state computes the same list again, whatever
    else has changed; filtering the visible list once more changes
    nothing. *)
Theorem filteredPlaces_pure_subsequence (w w' : World)
  (Hlist : places w' = places w)
  (Hcat : filterCategory (view w') = filterCategory (view w))
  (Hfav : showFavoritesOnly (view w') = showFavoritesOnly (view w)) :
  sublist (filteredPlaces w) (places w)
  /\ length (filteredPlaces w) <= length (places w)
  /\ filteredPlaces w' = filteredPlaces w
  /\ visiblePlaces (filterCategory (view w)) (showFavoritesOnly (view w))
                   (filteredPlaces w) = filteredPlaces w.
Proof.
  unfold filteredPlaces. split; [|split; [|split]].
  - apply visiblePlaces_sublist.
  - apply sublist_length, visiblePlaces_sublist.
  - now rewrite Hlist, Hcat, Hfav.
  - apply visiblePlaces_idempotent.
Qed.

(** C6, at two worlds that differ in the selection only. *)
Lemma filteredPlaces_pure_subsequence_witness :
  sublist (filteredPlaces worldLoaded) (places worldLoaded)
  /\ length (filteredPlaces worldLoaded) <= length (places worldLoaded)
  /\ filteredPlaces worldBarSelected = filteredPlaces worldLoaded.
Proof.
  destruct (filteredPlaces_pure_subsequence worldLoaded worldBarSelected)
    as (Hsub & Hlen & Hsame & _); try reflexivity.
  split; [exact Hsub|]. split; [exact Hlen | exact Hsame].
Defined.

(** ** The initial viewport *)

(** C9: [MapContainer] is mounted with zoom 12 and, as its center, the
    coordinates of the first visible place, or [\[40.7128, -74.0060\]]
    when no place is visible. *)
Theorem mapContainer_initial_viewport (w : World) :
  zoom (mapContainerProps w) = 12%Q
  /\ center (mapContainerProps w) =
       match filteredPlaces w with
       | p :: _ => (latitude p, longitude p)
       | [] => (407128 # 10000, - (740060 # 10000))%Q
       end.
Proof.
  split; [reflexivity|].
  unfold mapContainerProps, defaultCenter, centerOf; simpl.
  destruct (filteredPlaces w); reflexivity.
Qed.

(** ** The timer queue *)

Section TimerQueue.
Implicit Types (tm : Timer) (q : list Timer) (t : nat).

Lemma In_enqueue tm q x : In x (enqueue tm q) <-> x = tm \/ In x q.
Proof.
  induction q as [|y q IH]; simpl.
  - intuition congruence.
  - destruct (due y <=? due tm)%nat; simpl; rewrite ?IH; intuition congruence.
Qed.

(** A timer fires last among the timers due by its own time. *)
Lemma dueTimers_enqueue_at tm q :
  dueTimers (due tm) (enqueue tm q) = (dueTimers (due tm) q ++ [tm])%list.
Proof.
  induction q as [|y q IH]; simpl.
  - now rewrite Nat.leb_refl.
  - destruct (due y <=? due tm)%nat eqn:E; simpl.
    + now rewrite E, IH.
    + now rewrite Nat.leb_refl, E.
Qed.

Lemma pendingTimers_enqueue_at tm q :
  pendingTimers (due tm) (enqueue tm q) = pendingTimers (due tm) q.
Proof.
  induction q as [|y q IH]; simpl.
  - now rewrite Nat.leb_refl.
  - destruct (due y <=? due tm)%nat eqn:E; simpl.
    + now rewrite E, IH.
    + now rewrite Nat.leb_refl, E.
Qed.

(** Before its time a timer does not fire and stays in the queue. *)
Lemma dueTimers_enqueue_before tm q t :
  t < due tm -> dueTimers t (enqueue tm q) = dueTimers t q.
Proof.
  intros Hlt.
  assert (Htm : (due tm <=? t)%nat = false) by (apply Nat.leb_gt; lia).
  induction q as [|y q IH]; simpl.
  - now rewrite Htm.
  - destruct (due y <=? due tm)%nat eqn:E; simpl.
    + destruct (due y <=? t)%nat; [now rewrite IH | reflexivity].
    + rewrite Htm.
      assert (Hy : (due y <=? t)%nat = false)
        by (apply Nat.leb_gt; apply Nat.leb_gt in E; lia).
      now rewrite Hy.
Qed.

Lemma pendingTimers_enqueue_before tm q t :
  t < due tm -> pendingTimers t (enqueue tm q) = enqueue tm (pendingTimers t q).
Proof.
  intros Hlt.
  assert (Htm : (due tm <=? t)%nat = false) by (apply Nat.leb_gt; lia).
  induction q as [|y q IH]; simpl.
  - now rewrite Htm.
  - destruct (due y <=? due tm)%nat eqn:E; simpl.
    + destruct (due y <=? t)%nat; [exact IH | simpl; now rewrite E].
    + rewrite Htm.
      assert (Hy : (due y <=? t)%nat = false)
        by (apply Nat.leb_gt; apply Nat.leb_gt in E; lia).
      rewrite Hy. simpl. now rewrite E.
Qed.

(** Two timers due at different times end up in the same places
    whichever is set first. *)
Lemma enqueue_comm a b q :
  due a < due b -> enqueue a (enqueue b q) = enqueue b (enqueue a q).
Proof.
  intros Hab.
  assert (Hle : (due a <=? due b)%nat = true) by (apply Nat.leb_le; lia).
  assert (Hgt : (due b <=? due a)%nat = false) by (apply Nat.leb_gt; lia).
  induction q as [|y q IH]; simpl.
  - now rewrite Hgt, Hle.
  - destruct (due y <=? due b)%nat eqn:Eb, (due y <=? due a)%nat eqn:Ea; simpl;
      rewrite ?Ea, ?Eb, ?Hgt, ?Hle; simpl; rewrite ?Eb; try reflexivity.
    + now rewrite IH.
    + apply Nat.leb_le in Ea. apply Nat.leb_gt in Eb. lia.
Qed.

(** The queue stays in firing order, and in such a queue the timers that
    fire are all the timers that are due. *)
Lemma enqueue_firingOrder tm q : firingOrder q -> firingOrder (enqueue tm q).
Proof.
  unfold firingOrder. induction 1 as [|y q Hq IH Hy]; simpl.
  - repeat constructor.
  - destruct (due y <=? due tm)%nat eqn:E.
    + constructor; [exact IH|].
      apply List.Forall_forall. intros x Hx. apply In_enqueue in Hx.
      destruct Hx as [-> | Hx]; [now apply Nat.leb_le|].
      revert x Hx. now apply List.Forall_forall.
    + apply Nat.leb_gt in E. constructor; [now constructor|].
      constructor; [lia|].
      eapply List.Forall_impl; [|exact Hy]. simpl. intros; lia.
Qed.

Lemma pendingTimers_firingOrder t q :
  firingOrder q -> firingOrder (pendingTimers t q).
Proof.
  unfold firingOrder. induction 1 as [|y q Hq IH Hy]; simpl.
  - constructor.
  - destruct (due y <=? t)%nat; [exact IH | now constructor].
Qed.

Lemma dueTimers_firingOrder t q :
  firingOrder q -> dueTimers t q = List.filter (fun x => (due x <=? t)%nat) q.
Proof.
  unfold firingOrder. induction 1 as [|y q Hq IH Hy]; simpl; [reflexivity|].
  destruct (due y <=? t)%nat eqn:E; [now rewrite IH|].
  apply Nat.leb_gt in E. clear IH Hq.
  induction Hy as [|x q Hx Hy IH]; simpl; [reflexivity|].
  replace (due x <=? t)%nat with false; [exact IH|].
  symmetry. apply Nat.leb_gt. lia.
Qed.

Lemma fold_fire_last (l : list Timer) tm (v : View) :
  fold_left fire (l ++ [tm])%list v = callback tm (fold_left fire l v).
Proof. now rewrite fold_left_app. Qed.
End TimerQueue.

(** ** Search-select and add-place *)

Lemma handleSearchSelect_timers (w : World) (p : Place) :
  timers (handleSearchSelect p w) =
  enqueue (mkTimer (now w + 1500) (revealPlace p)) (timers w).
Proof. reflexivity. Qed.

Lemma handlePlaceAdded_timers (w : World) (p : Place) :
  timers (handlePlaceAdded p w) =
  enqueue (mkTimer (now w + 800) (setSelectedPlace (Some p))) (timers w).
Proof. reflexivity. Qed.

Lemma elapse_timers (dt : nat) (w : World) :
  timers (elapse dt w) = pendingTimers (now w + dt) (timers w).
Proof. reflexivity. Qed.

Lemma elapse_view (dt : nat) (w : World) :
  view (elapse dt w) = fold_left fire (dueTimers (now w + dt) (timers w)) (view w).
Proof. reflexivity. Qed.

(** The handlers keep the queue in firing order, so that when time
    passes every timer that is due fires. *)
Lemma handlers_keep_firingOrder (w : World) (p : Place) (dt : nat) :
  firingOrder (timers w) ->
  firingOrder (timers (handleSearchSelect p w))
  /\ firingOrder (timers (handlePlaceAdded p w))
  /\ firingOrder (timers (elapse dt w))
  /\ view (elapse dt w) =
       fold_left fire
         (List.filter (fun x => (due x <=? now w + dt)%nat) (timers w)) (view w).
Proof.
  intros Hq. rewrite handleSearchSelect_timers, handlePlaceAdded_timers.
  rewrite elapse_timers, elapse_view, dueTimers_firingOrder by exact Hq.
  auto using enqueue_firingOrder, pendingTimers_firingOrder.
Qed.

(** When the newest timer's delay has passed, its callback is the last
    one to have run. *)
Lemma elapse_setTimeout (cb : View -> View) (delay : nat) (w : World) :
  view (elapse delay (setTimeout cb delay w)) =
  cb (fold_left fire (dueTimers (now w + delay) (timers w)) (view w)).
Proof.
  rewrite elapse_view. simpl.
  rewrite (dueTimers_enqueue_at (mkTimer (now w + delay) cb)).
  now rewrite fold_fire_last.
Qed.

(** C2 (amended): search-select on [p] at once highlights [p], points the
    viewport target at [p]'s coordinates with zoom 16 and leaves the
    selection as it was; the deferred callback is still pending while
    less than 1500 ms have passed; once 1500 ms have passed the
    highlight is cleared and the selection is [p]. *)
Theorem handleSearchSelect_effect (w : World) (p : Place) :
  let w1 := handleSearchSelect p w in
  highlightedPlace (view w1) = Some p
  /\ selectedPlace (view w1) = selectedPlace (view w)
  /\ mapCenter (view w1) = Some (latitude p, longitude p)
  /\ mapZoom (view w1) = Some 16%Q
  /\ (forall dt, dt < 1500 ->
        In (mkTimer (now w + 1500) (revealPlace p)) (timers (elapse dt w1)))
  /\ highlightedPlace (view (elapse 1500 w1)) = None
  /\ selectedPlace (view (elapse 1500 w1)) = Some p.
Proof.
  intros w1. repeat split.
  - intros dt Hdt. rewrite elapse_timers. subst w1.
    rewrite handleSearchSelect_timers.
    rewrite pendingTimers_enqueue_before by (simpl; lia).
    apply In_enqueue. now left.
  - subst w1. unfold handleSearchSelect, andThen.
    now rewrite elapse_setTimeout.
  - subst w1. unfold handleSearchSelect, andThen.
    now rewrite elapse_setTimeout.
Qed.

(** C2 (amended), on the page with the bar's card open. *)
Lemma handleSearchSelect_effect_witness :
  selectedPlace (view (handleSearchSelect placeCafe worldBarSelected)) = Some placeBar
  /\ In (mkTimer 1500 (revealPlace placeCafe))
        (timers (elapse 1499 (handleSearchSelect placeCafe worldBarSelected)))
  /\ selectedPlace (view (elapse 1500 (handleSearchSelect placeCafe worldBarSelected)))
     = Some placeCafe.
Proof.
  destruct (handleSearchSelect_effect worldBarSelected placeCafe)
    as (_ & Hsel & _ & _ & Hpending & _ & Hdone).
  split; [exact Hsel|]. split; [|exact Hdone].
  apply (Hpending 1499). lia.
Defined.

(** The scenario of the specification, from the idle page: at once the
    cafe is highlighted and nothing is selected; 1.5 s later the
    highlight is gone and the cafe is selected. *)
Example handleSearchSelect_from_idle :
  highlightedPlace (view (handleSearchSelect placeCafe worldLoaded)) = Some placeCafe
  /\ selectedPlace (view (handleSearchSelect placeCafe worldLoaded)) = None
  /\ highlightedPlace (view (elapse 1500 (handleSearchSelect placeCafe worldLoaded))) = None
  /\ selectedPlace (view (elapse 1500 (handleSearchSelect placeCafe worldLoaded)))
     = Some placeCafe.
Proof. repeat split. Qed.

(** C2, as stated, fails where a card is open: right after the
    search-select the selection is still the bar, not null. *)
Lemma handleSearchSelect_keeps_selection :
  selectedPlace (view (handleSearchSelect placeCafe worldBarSelected)) = Some placeBar
  /\ selectedPlace (view (handleSearchSelect placeCafe worldBarSelected)) <> None.
Proof. split; [reflexivity | discriminate]. Qed.

(** C3: the add-place success handler at once points the viewport
    target at the new place's coordinates with zoom 15, closes the
    form and invalidates the ['places'] query (the call is made and
    the cache entry is marked stale); the selection is untouched and
    the deferred callback pending while less than 800 ms have passed;
    once 800 ms have passed the selection is the new place. *)
Theorem handlePlaceAdded_effect (w : World) (newPlace : Place) :
  let w1 := handlePlaceAdded newPlace w in
  mapCenter (view w1) = Some (latitude newPlace, longitude newPlace)
  /\ mapZoom (view w1) = Some 15%Q
  /\ showAddForm (view w1) = false
  /\ calls w1 = (calls w ++ [InvalidateQueries ["places"]])%list
  /\ stale (query w1) = true
  /\ selectedPlace (view w1) = selectedPlace (view w)
  /\ (forall dt, dt < 800 ->
        In (mkTimer (now w + 800) (setSelectedPlace (Some newPlace)))
           (timers (elapse dt w1)))
  /\ selectedPlace (view (elapse 800 w1)) = Some newPlace.
Proof.
  intros w1. repeat split.
  - intros dt Hdt. rewrite elapse_timers. subst w1.
    rewrite handlePlaceAdded_timers.
    rewrite pendingTimers_enqueue_before by (simpl; lia).
    apply In_enqueue. now left.
  - subst w1. unfold handlePlaceAdded, andThen.
    now rewrite elapse_setTimeout.
Qed.

(** C3, in the scenario of the specification: a new place at
    (40.7, -74.0) added on the loaded page. *)
Lemma handlePlaceAdded_effect_witness :
  mapCenter (view (handlePlaceAdded placeBar worldLoaded))
    = Some (407 # 10, - (740 # 10))%Q
  /\ mapZoom (view (handlePlaceAdded placeBar worldLoaded)) = Some 15%Q
  /\ In (mkTimer 800 (setSelectedPlace (Some placeBar)))
        (timers (elapse 799 (handlePlaceAdded placeBar worldLoaded)))
  /\ selectedPlace (view (elapse 800 (handlePlaceAdded placeBar worldLoaded)))
     = Some placeBar.
Proof.
  destruct (handlePlaceAdded_effect worldLoaded placeBar)
    as (Hc & Hz & _ & _ & _ & _ & Hpending & Hdone).
  split; [exact Hc|]. split; [exact Hz|]. split; [|exact Hdone].
  apply (Hpending 799). lia.
Defined.

(** ** Overlapping deferred selections *)

Lemma elapse_now (dt : nat) (w : World) : now (elapse dt w) = now w + dt.
Proof. reflexivity. Qed.

Lemma handleSearchSelect_now (w : World) (p : Place) :
  now (handleSearchSelect p w) = now w.
Proof. reflexivity. Qed.

Lemma handlePlaceAdded_now (w : World) (p : Place) :
  now (handlePlaceAdded p w) = now w.
Proof. reflexivity. Qed.

(** A timer set earlier is still in the queue after either handler. *)
Lemma handlers_keep_timers (w : World) (place : Place) (tm : Timer) :
  In tm (timers w) ->
  In tm (timers (handleSearchSelect place w))
  /\ In tm (timers (handlePlaceAdded place w)).
Proof.
  intros Hin.
  rewrite handleSearchSelect_timers, handlePlaceAdded_timers, !In_enqueue.
  split; now right.
Qed.

(** A world whose queue holds a timer fires it when its time comes, after
    the timers queued before it, and keeps it until then. *)
Lemma deferred_fires (w : World) (tm : Timer) (Q : list Timer) (dt : nat) :
  timers w = enqueue tm Q -> now w + dt = due tm ->
  view (elapse dt w) = callback tm (fold_left fire (dueTimers (due tm) Q) (view w))
  /\ timers (elapse dt w) = pendingTimers (due tm) Q.
Proof.
  intros Hq Ht. rewrite elapse_view, elapse_timers, Hq, Ht.
  now rewrite dueTimers_enqueue_at, pendingTimers_enqueue_at, fold_fire_last.
Qed.

Lemma deferred_pending (w : World) (tm : Timer) (Q : list Timer) (dt : nat) :
  timers w = enqueue tm Q -> now w + dt < due tm ->
  view (elapse dt w) = fold_left fire (dueTimers (now w + dt) Q) (view w)
  /\ timers (elapse dt w) = enqueue tm (pendingTimers (now w + dt) Q).
Proof.
  intros Hq Ht. rewrite elapse_view, elapse_timers, Hq.
  now rewrite dueTimers_enqueue_before, pendingTimers_enqueue_before.
Qed.

Lemma deferHandler_timers (k : Deferral) (p : Place) (w : World) :
  timers (deferHandler k p w) =
  enqueue (mkTimer (now w + deferDelay k) (deferCallback k p)) (timers w).
Proof. destruct k; reflexivity. Qed.

Lemma deferHandler_now (k : Deferral) (p : Place) (w : World) :
  now (deferHandler k p w) = now w.
Proof. destruct k; reflexivity. Qed.

Lemma deferCallback_selects (k : Deferral) (p : Place) (v : View) :
  selectedPlace (deferCallback k p v) = Some p.
Proof. destruct k; reflexivity. Qed.

(** C8: neither handler removes a pending timer.  Let a first deferred
    selection (of [p], by search-select or by add-place success) be
    followed [dt] ms later, before its callback is due, by a second one
    (of [q], by either handler).  Both timers are then pending and both
    fire.  If the first is due before the second, it fires at its time
    and selects [p], the second still pending, and the second fires
    later and overwrites the selection with [q].  If the second is due
    before the first, it fires first and selects [q], and the first,
    firing later, overwrites the selection with [p].  If both are due
    at the same instant, both fire then, in the order they were set,
    and the selection is [q]. *)
Theorem deferred_selection_last_write_wins
  (w : World) (k1 k2 : Deferral) (p q : Place) (dt : nat)
  (Hlt : dt < deferDelay k1) :
  let d1 := deferDelay k1 in
  let d2 := deferDelay k2 in
  let first := mkTimer (now w + d1) (deferCallback k1 p) in
  let second := mkTimer (now w + dt + d2) (deferCallback k2 q) in
  let w2 := deferHandler k2 q (elapse dt (deferHandler k1 p w)) in
  (forall tm place, In tm (timers w) ->
     In tm (timers (handleSearchSelect place w))
     /\ In tm (timers (handlePlaceAdded place w)))
  /\ In first (timers w2) /\ In second (timers w2)
  /\ (d1 < dt + d2 ->
        In first (dueTimers (now w2 + (d1 - dt)) (timers w2))
        /\ selectedPlace (view (elapse (d1 - dt) w2)) = Some p
        /\ In second (timers (elapse (d1 - dt) w2))
        /\ In second (dueTimers (now w2 + (d1 - dt) + (dt + d2 - d1))
                                (timers (elapse (d1 - dt) w2)))
        /\ selectedPlace (view (elapse (dt + d2 - d1) (elapse (d1 - dt) w2)))
           = Some q)
  /\ (dt + d2 < d1 ->
        In second (dueTimers (now w2 + d2) (timers w2))
        /\ selectedPlace (view (elapse d2 w2)) = Some q
        /\ In first (timers (elapse d2 w2))
        /\ In first (dueTimers (now w2 + d2 + (d1 - dt - d2))
                               (timers (elapse d2 w2)))
        /\ selectedPlace (view (elapse (d1 - dt - d2) (elapse d2 w2))) = Some p)
  /\ (dt + d2 = d1 ->
        In first (dueTimers (now w2 + d2) (timers w2))
        /\ In second (dueTimers (now w2 + d2) (timers w2))
        /\ selectedPlace (view (elapse d2 w2)) = Some q).
Proof.
  intros d1 d2 first second w2.
  split; [intros tm place; apply handlers_keep_timers|].
  set (Q := pendingTimers (now w + dt) (timers w)).
  destruct (deferred_pending (deferHandler k1 p w) first (timers w) dt)
    as [_ Hq1].
  { apply deferHandler_timers. }
  { rewrite deferHandler_now. simpl. lia. }
  rewrite deferHandler_now in Hq1. fold Q in Hq1.
  assert (Hn2 : now w2 = now w + dt).
  { subst w2. now rewrite deferHandler_now, elapse_now, deferHandler_now. }
  assert (Hq2 : timers w2 = enqueue second (enqueue first Q)).
  { subst w2. rewrite deferHandler_timers, elapse_now, deferHandler_now, Hq1.
    reflexivity. }
  split; [rewrite Hq2, !In_enqueue; right; now left|].
  split; [rewrite Hq2, In_enqueue; now left|].
  split; [|split].
  - (* the first is due first *)
    intros Horder.
    assert (Hq2' : timers w2 = enqueue first (enqueue second Q)).
    { rewrite Hq2. symmetry. apply enqueue_comm. simpl. lia. }
    assert (Ht1 : now w2 + (d1 - dt) = due first) by (rewrite Hn2; simpl; lia).
    destruct (deferred_fires w2 first _ (d1 - dt) Hq2' Ht1) as [Hv Hp].
    rewrite pendingTimers_enqueue_before in Hp by (simpl; lia).
    assert (Ht2 : now (elapse (d1 - dt) w2) + (dt + d2 - d1) = due second)
      by (rewrite elapse_now, Hn2; simpl; lia).
    destruct (deferred_fires (elapse (d1 - dt) w2) second _ (dt + d2 - d1) Hp Ht2)
      as [Hv' _].
    repeat match goal with |- _ /\ _ => split end.
    + rewrite Ht1, Hq2', dueTimers_enqueue_at. apply in_or_app. right; now left.
    + rewrite Hv. apply deferCallback_selects.
    + rewrite Hp. apply In_enqueue. now left.
    + rewrite <- elapse_now, Ht2, Hp, dueTimers_enqueue_at.
      apply in_or_app. right; now left.
    + rewrite Hv'. apply deferCallback_selects.
  - (* the second is due first *)
    intros Horder.
    assert (Ht2 : now w2 + d2 = due second) by (rewrite Hn2; simpl; lia).
    destruct (deferred_fires w2 second _ d2 Hq2 Ht2) as [Hv Hp].
    rewrite pendingTimers_enqueue_before in Hp by (simpl; lia).
    assert (Ht1 : now (elapse d2 w2) + (d1 - dt - d2) = due first)
      by (rewrite elapse_now, Hn2; simpl; lia).
    destruct (deferred_fires (elapse d2 w2) first _ (d1 - dt - d2) Hp Ht1)
      as [Hv' _].
    repeat match goal with |- _ /\ _ => split end.
    + rewrite Ht2, Hq2, dueTimers_enqueue_at. apply in_or_app. right; now left.
    + rewrite Hv. apply deferCallback_selects.
    + rewrite Hp. apply In_enqueue. now left.
    + rewrite <- elapse_now, Ht1, Hp, dueTimers_enqueue_at.
      apply in_or_app. right; now left.
    + rewrite Hv'. apply deferCallback_selects.
  - (* both are due at the same instant *)
    intros Horder.
    assert (Ht2 : now w2 + d2 = due second) by (rewrite Hn2; simpl; lia).
    assert (Hsame : due second = due first) by (simpl; lia).
    destruct (deferred_fires w2 second _ d2 Hq2 Ht2) as [Hv _].
    assert (Hfired : dueTimers (due second) (timers w2)
                     = ((dueTimers (due first) Q ++ [first]) ++ [second])%list).
    { rewrite Hq2, dueTimers_enqueue_at, Hsame. now rewrite dueTimers_enqueue_at. }
    repeat match goal with |- _ /\ _ => split end.
    + rewrite Ht2, Hfired. apply in_or_app. left. apply in_or_app. right; now left.
    + rewrite Ht2, Hfired. apply in_or_app. right; now left.
    + rewrite Hv. apply deferCallback_selects.
Qed.

(** C8, on the loaded sample page: a second search-select 500 ms after
    the first; an add-place success 100 ms after a search-select; a
    search-select 300 ms after an add-place success; and an add-place
    success 700 ms after a search-select, both callbacks due at once. *)
Lemma deferred_selection_last_write_wins_witness :
  selectedPlace (view (elapse 1000
    (handleSearchSelect placeCafe (elapse 500 (handleSearchSelect placeBar worldLoaded)))))
    = Some placeBar
  /\ selectedPlace (view (elapse 500 (elapse 1000
       (handleSearchSelect placeCafe (elapse 500 (handleSearchSelect placeBar worldLoaded))))))
     = Some placeCafe
  /\ selectedPlace (view (elapse 600 (elapse 800
       (handlePlaceAdded placeCafe (elapse 100 (handleSearchSelect placeBar worldLoaded))))))
     = Some placeBar
  /\ selectedPlace (view (elapse 1000 (elapse 500
       (handleSearchSelect placeCafe (elapse 300 (handlePlaceAdded placeBar worldLoaded))))))
     = Some placeCafe
  /\ selectedPlace (view (elapse 800
       (handlePlaceAdded placeCafe (elapse 700 (handleSearchSelect placeBar worldLoaded)))))
     = Some placeCafe.
Proof.
  assert (H1 : 500 < deferDelay BySearchSelect) by (simpl; lia).
  assert (H2 : 100 < deferDelay BySearchSelect) by (simpl; lia).
  assert (H3 : 300 < deferDelay ByPlaceAdded) by (simpl; lia).
  assert (H4 : 700 < deferDelay BySearchSelect) by (simpl; lia).
  destruct (deferred_selection_last_write_wins worldLoaded BySearchSelect
              BySearchSelect placeBar placeCafe 500 H1)
    as (_ & _ & _ & Ha & _ & _).
  destruct (deferred_selection_last_write_wins worldLoaded BySearchSelect
              ByPlaceAdded placeBar placeCafe 100 H2)
    as (_ & _ & _ & _ & Hb & _).
  destruct (deferred_selection_last_write_wins worldLoaded ByPlaceAdded
              BySearchSelect placeBar placeCafe 300 H3)
    as (_ & _ & _ & Hc & _ & _).
  destruct (deferred_selection_last_write_wins worldLoaded BySearchSelect
              ByPlaceAdded placeBar placeCafe 700 H4)
    as (_ & _ & _ & _ & _ & Hd).
  destruct Ha as (_ & Ha1 & _ & _ & Ha2); [simpl; lia|].
  destruct Hb as (_ & _ & _ & _ & Hb2); [simpl; lia|].
  destruct Hc as (_ & _ & _ & _ & Hc2); [simpl; lia|].
  destruct Hd as (_ & _ & Hd2); [simpl; lia|].
  split; [exact Ha1|]. split; [exact Ha2|]. split; [exact Hb2|].
  split; [exact Hc2 | exact Hd2].
Defined.

(** ** Toggling a favorite *)

Section Store.
Variables (i : string) (d : PlacePatch).

Lemma applyPatch_id (p : Place) : id (applyPatch d p) = id p.
Proof. reflexivity. Qed.

Lemma remoteUpdate_found (store : list Place) :
  (exists r, In r store /\ id r = i) ->
  remoteUpdate i d store =
  Some (map (fun q => if String.eqb (id q) i then applyPatch d q else q) store).
Proof.
  intros (r & Hin & Hid). unfold remoteUpdate.
  replace (existsb (fun q => String.eqb (id q) i) store) with true; [reflexivity|].
  symmetry. apply existsb_exists. exists r. split; [exact Hin|].
  now apply String.eqb_eq.
Qed.

Lemma remoteUpdate_missing (store : list Place) :
  remoteUpdate i d store = None ->
  forall r, In r store -> id r <> i.
Proof.
  unfold remoteUpdate.
  destruct (existsb _ store) eqn:E; [discriminate|].
  intros _ r Hin Hid.
  assert (Ht : existsb (fun q => String.eqb (id q) i) store = true).
  { apply existsb_exists. exists r. split; [exact Hin|]. now apply String.eqb_eq. }
  congruence.
Qed.

(** After a successful update every stored place with that id has
    the patch applied. *)
Lemma remoteUpdate_patched (store store' : list Place) (r' : Place) :
  remoteUpdate i d store = Some store' ->
  In r' store' -> id r' = i ->
  exists r, In r store /\ id r = i /\ r' = applyPatch d r.
Proof.
  unfold remoteUpdate. destruct (existsb _ store); [|discriminate].
  intros [= <-] Hin Hid.
  apply in_map_iff in Hin. destruct Hin as (r & Hr & Hin).
  destruct (String.eqb (id r) i) eqn:E.
  - exists r. apply String.eqb_eq in E. now subst r'.
  - subst r'. apply String.eqb_neq in E. contradiction.
Qed.
End Store.

Lemma In_insertByDate (p x : Place) (l : list Place) :
  In x (insertByDate p l) <-> x = p \/ In x l.
Proof.
  induction l as [|q l IH]; simpl.
  - intuition congruence.
  - destruct (date_visited q <=? date_visited p)%Z; simpl; rewrite ?IH;
      intuition congruence.
Qed.

(** Listing the store returns the stored places, each of them. *)
Lemma In_remoteList (sortKey : string) (store : list Place) (x : Place) :
  In x (remoteList sortKey store) <-> In x store.
Proof.
  unfold remoteList. destruct (String.eqb sortKey "-date_visited"); [|reflexivity].
  induction store as [|p store IH]; simpl; [reflexivity|].
  rewrite In_insertByDate, IH. intuition congruence.
Qed.

Lemma invalidateQueries_places (w : World) :
  invalidateQueries ["places"] w =
  mkWorld (view w) (mapRef w) (mkQuery (data (query w)) true) (remote w) (now w)
          (timers w) (calls w ++ [InvalidateQueries ["places"]]).
Proof. reflexivity. Qed.

Lemma handleToggleFavorite_success (w : World) (p : Place) (store' : list Place) :
  remoteUpdate (id p) (toggleData p) (remote w) = Some store' ->
  handleToggleFavorite p w =
  mkWorld (view w) (mapRef w) (mkQuery (data (query w)) true) store' (now w)
          (timers w)
          ((calls w ++ [PlaceUpdate (id p) (toggleData p)])
             ++ [InvalidateQueries ["places"]]).
Proof.
  intros Hup. unfold handleToggleFavorite, andThen, mutationSettled, mutateAsync.
  simpl. now rewrite Hup.
Qed.

Lemma handleToggleFavorite_view (w : World) (p : Place) :
  view (handleToggleFavorite p w) = view w.
Proof.
  unfold handleToggleFavorite, andThen, mutationSettled, mutateAsync. simpl.
  destruct (remoteUpdate _ _ _); reflexivity.
Qed.

(** C5: toggling the favorite of [p], a place the store holds, sends an
    update of [p]'s id whose only field is [is_favorite], set to the
    negation of [p]'s; sending it changes neither the cached list nor
    the view; on success the ['places'] query is invalidated, the cached
    list still being the old one; and the refetch that follows yields a
    list with a place of [p]'s id whose [is_favorite] is the negation
    of [p]'s. *)
Theorem toggleFavorite_round_trip (w : World) (p : Place)
  (Hstored : exists r, In r (remote w) /\ id r = id p) :
  let sent := mutateAsync (id p) (toggleData p) w in
  let settled := handleToggleFavorite p w in
  let refetched := refetchPlaces settled in
  calls sent =
    (calls w ++ [PlaceUpdate (id p)
                   {| patch_is_favorite := Some (negb (is_favorite p)) |}])%list
  /\ places sent = places w /\ view sent = view w
  /\ calls settled = (calls sent ++ [InvalidateQueries ["places"]])%list
  /\ stale (query settled) = true
  /\ places settled = places w /\ view settled = view w
  /\ exists p', In p' (places refetched)
                /\ id p' = id p /\ is_favorite p' = negb (is_favorite p).
Proof.
  intros sent settled refetched.
  pose proof (remoteUpdate_found (id p) (toggleData p) (remote w) Hstored) as Hup.
  pose proof (handleToggleFavorite_success w p _ Hup) as Hset.
  fold settled in Hset.
  repeat match goal with |- _ /\ _ => split end;
    try reflexivity; try (rewrite Hset; reflexivity).
  destruct Hstored as (r & Hin & Hid).
  exists (applyPatch (toggleData p) r). split; [|split].
  - subst refetched. unfold refetchPlaces, andThen, places. simpl.
    apply In_remoteList. rewrite Hset. simpl.
    apply in_map_iff. exists r. split; [|exact Hin].
    apply String.eqb_eq in Hid. now rewrite Hid.
  - exact Hid.
  - reflexivity.
Qed.

(** C5, on the loaded page: the cafe, a favorite, is toggled. *)
Lemma toggleFavorite_round_trip_witness :
  exists p', In p' (places (refetchPlaces (handleToggleFavorite placeCafe worldLoaded)))
             /\ id p' = "2" /\ is_favorite p' = false.
Proof.
  assert (Hstored : exists r, In r (remote worldLoaded) /\ id r = id placeCafe).
  { exists placeCafe. split; [right; left; reflexivity | reflexivity]. }
  destruct (toggleFavorite_round_trip worldLoaded placeCafe Hstored)
    as (_ & _ & _ & _ & _ & _ & _ & Hrefetched).
  exact Hrefetched.
Defined.

(** C10: no step of toggling [p]'s favorite, and not the refetch that
    follows, changes the view: filter state, viewport target, highlight
    and selection stay, and so do the pending timers.  A selection that
    was [p] is still [p], with its old [is_favorite]; every place of
    [p]'s id in the refetched list has the negated [is_favorite], so
    the selected snapshot is none of the refetched places; a click on
    a marker then selects the place of that marker. *)
Theorem toggleFavorite_frame (w : World) (p : Place) :
  let sent := mutateAsync (id p) (toggleData p) w in
  let settled := handleToggleFavorite p w in
  let refetched := refetchPlaces settled in
  view sent = view w /\ view settled = view w /\ view refetched = view w
  /\ timers refetched = timers w
  /\ (selectedPlace (view w) = Some p -> selectedPlace (view refetched) = Some p)
  /\ (forall p', In p' (places refetched) -> id p' = id p ->
                 is_favorite p' = negb (is_favorite p))
  /\ ~ In p (places refetched)
  /\ (forall p', selectedPlace (view (handleMarkerClick p' refetched)) = Some p').
Proof.
  intros sent settled refetched.
  assert (Hview : view refetched = view w).
  { subst refetched settled. unfold refetchPlaces, andThen. simpl.
    apply handleToggleFavorite_view. }
  assert (Hfresh : forall p', In p' (places refetched) -> id p' = id p ->
                              is_favorite p' = negb (is_favorite p)).
  { intros p' Hin Hid. subst refetched. unfold refetchPlaces, andThen, places in Hin.
    simpl in Hin. apply In_remoteList in Hin. subst settled.
    unfold handleToggleFavorite, andThen, mutationSettled, mutateAsync in Hin.
    simpl in Hin.
    destruct (remoteUpdate (id p) (toggleData p) (remote w)) as [store'|] eqn:Hup.
    - simpl in Hin.
      destruct (remoteUpdate_patched _ _ _ _ _ Hup Hin Hid) as (r & _ & _ & ->).
      reflexivity.
    - simpl in Hin. exfalso.
      exact (remoteUpdate_missing _ _ _ Hup _ Hin Hid). }
  repeat match goal with |- _ /\ _ => split end.
  - reflexivity.
  - apply handleToggleFavorite_view.
  - exact Hview.
  - subst refetched settled. unfold refetchPlaces, andThen. simpl.
    unfold handleToggleFavorite, andThen, mutationSettled, mutateAsync. simpl.
    destruct (remoteUpdate _ _ _); reflexivity.
  - intros Hsel. now rewrite Hview.
  - exact Hfresh.
  - intros Hin. specialize (Hfresh p Hin eq_refl).
    destruct (is_favorite p); discriminate.
  - reflexivity.
Qed.

(** C10, on the page with the bar's card open: the bar is toggled. *)
Lemma toggleFavorite_frame_witness :
  selectedPlace (view (refetchPlaces (handleToggleFavorite placeBar worldBarSelected)))
    = Some placeBar
  /\ ~ In placeBar (places (refetchPlaces (handleToggleFavorite placeBar worldBarSelected))).
Proof.
  destruct (toggleFavorite_frame worldBarSelected placeBar)
    as (_ & _ & _ & _ & Hsel & _ & Hnot & _).
  split; [apply Hsel; reflexivity | exact Hnot].
Defined.

(** ** Recenter *)

Lemma Qmin_cases (x y : Q) : Qmin x y = x \/ Qmin x y = y.
Proof.
  unfold Qmin, GenericMinMax.gmin. destruct (x ?= y)%Q; auto.
Qed.

Lemma Qmax_cases (x y : Q) : Qmax x y = x \/ Qmax x y = y.
Proof.
  unfold Qmax, GenericMinMax.gmax. destruct (x ?= y)%Q; auto.
Qed.

Lemma covers_extend (sw ne : LatLng) (pts : list LatLng) (pt : LatLng) :
  covers (mkBox sw ne) pts ->
  covers (mkBox (Qmin (fst pt) (fst sw), Qmin (snd pt) (snd sw))
                (Qmax (fst pt) (fst ne), Qmax (snd pt) (snd ne)))
         (pts ++ [pt]).
Proof.
  intros Hc x Hin. simpl.
  apply in_app_or in Hin. destruct Hin as [Hin | [<- | []]].
  - destruct (Hc x Hin) as [[H1 H2] [H3 H4]]. simpl in *.
    repeat split.
    + eapply Qle_trans; [apply Q.le_min_r | exact H1].
    + eapply Qle_trans; [exact H2 | apply Q.le_max_r].
    + eapply Qle_trans; [apply Q.le_min_r | exact H3].
    + eapply Qle_trans; [exact H4 | apply Q.le_max_r].
  - repeat split;
      first [apply Q.le_min_l | apply Q.le_max_l].
Qed.

Lemma fits_extend (sw ne : LatLng) (pts : list LatLng) (pt : LatLng) :
  fits (mkBox sw ne) pts ->
  fits (mkBox (Qmin (fst pt) (fst sw), Qmin (snd pt) (snd sw))
              (Qmax (fst pt) (fst ne), Qmax (snd pt) (snd ne)))
       (pts ++ [pt]).
Proof.
  intros ((a & Ha & Ea) & (b & Hb & Eb) & (c & Hc & Ec) & (e & He & Ee)).
  simpl in *.
  assert (Hpt : In pt (pts ++ [pt])) by (apply in_or_app; right; now left).
  assert (Hold : forall x, In x pts -> In x (pts ++ [pt]))
    by (intros x Hx; apply in_or_app; now left).
  repeat split; simpl.
  - destruct (Qmin_cases (fst pt) (fst sw)) as [-> | ->];
      [exists pt | exists a]; auto.
  - destruct (Qmin_cases (snd pt) (snd sw)) as [-> | ->];
      [exists pt | exists b]; auto.
  - destruct (Qmax_cases (fst pt) (fst ne)) as [-> | ->];
      [exists pt | exists c]; auto.
  - destruct (Qmax_cases (snd pt) (snd ne)) as [-> | ->];
      [exists pt | exists e]; auto.
Qed.

Lemma latLngBounds_snoc (pts : list LatLng) (pt : LatLng) :
  latLngBounds (pts ++ [pt]) = extend (latLngBounds pts) pt.
Proof. unfold latLngBounds. now rewrite fold_left_app. Qed.

(** The bounds of no point are invalid; the bounds of some points are
    their bounding box. *)
Lemma latLngBounds_spec (pts : list LatLng) :
  match latLngBounds pts with
  | None => pts = []
  | Some box => pts <> [] /\ covers box pts /\ fits box pts
  end.
Proof.
  induction pts as [|pt pts IH] using rev_ind; [reflexivity|].
  rewrite latLngBounds_snoc.
  destruct (latLngBounds pts) as [[sw ne]|]; simpl.
  - destruct IH as (_ & Hc & Hf). split; [|split].
    + now destruct pts.
    + now apply covers_extend.
    + now apply fits_extend.
  - subst pts. simpl. split; [discriminate|]. split.
    + intros x [<- | []]. simpl. repeat split; apply Qle_refl.
    + repeat split; exists pt; simpl; auto.
Qed.

Lemma handleRecenter_empty (w : World) :
  filteredPlaces w = [] -> handleRecenter w = w.
Proof. intros H. unfold handleRecenter. now rewrite H. Qed.

Lemma handleRecenter_detached (w : World) :
  mapRef w = None -> handleRecenter w = w.
Proof.
  intros H. unfold handleRecenter. rewrite H.
  now destruct (0 <? length (filteredPlaces w))%nat.
Qed.

Lemma handleRecenter_attached (w : World) :
  filteredPlaces w <> [] -> mapRef w <> None ->
  handleRecenter w =
  call (FitBounds (latLngBounds (map coords (filteredPlaces w))) recenterPadding) w.
Proof.
  intros Hne Hmap. unfold handleRecenter.
  destruct (filteredPlaces w) as [|p l]; [contradiction|].
  destruct (mapRef w); [reflexivity | contradiction].
Qed.

(** C7 (amended): with no visible place recenter returns the world as it
    is, no call made and no state changed, and so it does while no map
    is attached to [mapRef].  With a visible place and the map attached,
    it makes one call and changes nothing else: [fitBounds] with
    padding [\[50, 50\]] and with the bounding box of the visible
    places' coordinates, a box that contains every one of them and
    whose four sides each pass through one of them. *)
Theorem handleRecenter_effect (w : World) :
  (filteredPlaces w = [] -> handleRecenter w = w)
  /\ (mapRef w = None -> handleRecenter w = w)
  /\ (filteredPlaces w <> [] -> mapRef w <> None ->
      exists box,
        handleRecenter w =
          mkWorld (view w) (mapRef w) (query w) (remote w) (now w) (timers w)
                  (calls w ++ [FitBounds (Some box) (50, 50)%Z])
        /\ covers box (map coords (filteredPlaces w))
        /\ fits box (map coords (filteredPlaces w))
        /\ forall p, In p (filteredPlaces w) ->
             (fst (southWest box) <= latitude p <= fst (northEast box))%Q
             /\ (snd (southWest box) <= longitude p <= snd (northEast box))%Q).
Proof.
  split; [apply handleRecenter_empty|]. split; [apply handleRecenter_detached|].
  intros Hne Hmap.
  pose proof (latLngBounds_spec (map coords (filteredPlaces w))) as Hspec.
  destruct (latLngBounds (map coords (filteredPlaces w))) as [box|] eqn:Hb.
  - destruct Hspec as (_ & Hc & Hf). exists box. split; [|split; [exact Hc|split]].
    + rewrite handleRecenter_attached, Hb by assumption. reflexivity.
    + exact Hf.
    + intros p Hin. apply (Hc (coords p)). now apply in_map.
  - apply map_eq_nil in Hspec. contradiction.
Qed.

(** C7 (amended), on the loaded page with the map attached. *)
Lemma handleRecenter_effect_witness :
  exists box,
    calls (handleRecenter worldLoaded) =
      [PlaceList "-date_visited"; FitBounds (Some box) (50, 50)%Z]
    /\ (fst (southWest box) <= latitude placeBar <= fst (northEast box))%Q.
Proof.
  destruct (handleRecenter_effect worldLoaded) as (_ & _ & H).
  destruct H as (box & Hcall & _ & _ & Hin).
  - discriminate.
  - discriminate.
  - exists box. split.
    + now rewrite Hcall.
    + apply (Hin placeBar). right; left; reflexivity.
Defined.

(** C7, as stated, fails while no map is attached: a place is visible,
    yet recenter makes no call to the widget. *)
Lemma handleRecenter_without_map :
  filteredPlaces worldNoMap = [placeCafe; placeBar]
  /\ handleRecenter worldNoMap = worldNoMap
  /\ calls (handleRecenter worldNoMap) = calls worldNoMap.
Proof. repeat split. Qed.

(** ** Marker icons *)

Lemma isZoomedOut_spec (z : number) :
  (isZoomedOut z = true <-> (z < 13)%Q) /\ (isZoomedOut z = false <-> (13 <= z)%Q).
Proof.
  unfold isZoomedOut. destruct (Qlt_le_dec z 13) as [Hlt | Hle].
  - repeat split; intros; try discriminate; try assumption.
    exfalso. eapply Qlt_not_le; eassumption.
  - repeat split; intros; try discriminate; try assumption.
    exfalso. eapply Qlt_not_le; eassumption.
Qed.

(** The two size tiers, whatever the color. *)
Lemma createIcon_size_tier (color : JsValue) (z : number) :
  ((z < 13)%Q ->
     iconSize (createIcon color (Some z)) = (16, 21)%Z
     /\ iconAnchor (createIcon color (Some z)) = (8, 21)%Z
     /\ popupAnchor (createIcon color (Some z)) = (0, -21)%Z)
  /\ ((13 <= z)%Q ->
     iconSize (createIcon color (Some z)) = (32, 42)%Z
     /\ iconAnchor (createIcon color (Some z)) = (16, 42)%Z
     /\ popupAnchor (createIcon color (Some z)) = (0, -42)%Z).
Proof.
  destruct (isZoomedOut_spec z) as [Hout Hin].
  split; intros Hz; [apply Hout in Hz | apply Hin in Hz];
    unfold createIcon; simpl; rewrite Hz; repeat split.
Qed.

(** The five mapped categories get their own color. *)
Lemma markerColor_mapped :
  markerColor "restaurant" = JsString "#f43f5e"
  /\ markerColor "activity" = JsString "#10b981"
  /\ markerColor "bar" = JsString "#a855f7"
  /\ markerColor "cafe" = JsString "#d97706"
  /\ markerColor "landmark" = JsString "#3b82f6".
Proof. repeat split; vm_compute; reflexivity. Qed.

(** A category that is neither mapped nor the name of a member of
    [Object.prototype] gets the default color. *)
Lemma markerColor_unmapped (cat : string) :
  ~ In cat mappedCategories -> ~ In cat objectPrototypeKeys ->
  markerColor cat = JsString defaultColor.
Proof.
  intros Hmapped Hproto.
  assert (Hown : categoryColors !! cat = None).
  { unfold categoryColors.
    rewrite !lookup_insert_ne; [apply lookup_empty | ..];
      intros <-; apply Hmapped; simpl; tauto. }
  unfold markerColor, getProperty. rewrite Hown.
  rewrite bool_decide_eq_false_2; [reflexivity|].
  intros Hin. apply Hproto. now apply list_elem_of_In.
Qed.

(** A category that is the name of a member of [Object.prototype] gets
    that member for a color. *)
Lemma markerColor_inherited (cat : string) :
  In cat objectPrototypeKeys -> markerColor cat = JsInherited cat.
Proof.
  unfold objectPrototypeKeys. simpl.
  intros H; repeat (destruct H as [<- | H]; [vm_compute; reflexivity|]);
    contradiction.
Qed.

(** C4, at the category ["constructor"]: it is none of the five mapped
    categories, yet the lookup in [categoryColors] finds the inherited
    [Object.prototype.constructor], which is truthy, so the default
    color is not used; the size tiers are as claimed. *)
Theorem markerIcon_inherited_category (z : number) :
  ~ In "constructor" mappedCategories
  /\ markerColor "constructor" = JsInherited "constructor"
  /\ markerColor "constructor" <> JsString defaultColor
  /\ html (markerIcon "constructor" z)
     = html (createIcon (JsString "function Object() { [native code] }") (Some z))
  /\ html (markerIcon "constructor" z)
     <> html (createIcon (JsString defaultColor) (Some z)).
Proof.
  split.
  { simpl. intros H. repeat (destruct H as [H | H]; [discriminate H|]). exact H. }
  split; [vm_compute; reflexivity|].
  split; [vm_compute; discriminate|].
  assert (Hc : markerColor "constructor" = JsInherited "constructor")
    by (vm_compute; reflexivity).
  unfold markerIcon, createIcon. rewrite Hc. simpl html.
  destruct (isZoomedOut z); split;
    solve [ vm_compute; reflexivity | vm_compute; discriminate ].
Qed.

(** * The running page *)

(** ** Timers that fire and timers that stay *)

Lemma dueTimers_pendingTimers (t : nat) (q : list Timer) :
  q = (dueTimers t q ++ pendingTimers t q)%list.
Proof.
  induction q as [|x q IH]; simpl; [reflexivity|].
  destruct (due x <=? t)%nat; simpl; [now f_equal | reflexivity].
Qed.

Lemma In_dueTimers (t : nat) (q : list Timer) (x : Timer) :
  In x (dueTimers t q) -> In x q.
Proof.
  intros H. rewrite (dueTimers_pendingTimers t q). apply in_or_app. now left.
Qed.

Lemma In_pendingTimers (t : nat) (q : list Timer) (x : Timer) :
  In x (pendingTimers t q) -> In x q.
Proof.
  intros H. rewrite (dueTimers_pendingTimers t q). apply in_or_app. now right.
Qed.

Lemma pendingTimers_later (t : nat) (q : list Timer) :
  firingOrder q -> List.Forall (fun x => t < due x) (pendingTimers t q).
Proof.
  unfold firingOrder. induction 1 as [|y q Hq IH Hy]; simpl; [constructor|].
  destruct (due y <=? t)%nat eqn:E; [exact IH|].
  apply Nat.leb_gt in E. constructor; [exact E|].
  eapply List.Forall_impl; [|exact Hy]. simpl. intros; lia.
Qed.

(** When every timer of the queue is due, all of them fire. *)
Lemma dueTimers_all (t : nat) (q : list Timer) :
  List.Forall (fun x => due x <= t) q ->
  dueTimers t q = q /\ pendingTimers t q = [].
Proof.
  induction 1 as [|x q Hx Hq [IH1 IH2]]; simpl; [now split|].
  apply Nat.leb_le in Hx. rewrite Hx. split; [now f_equal | exact IH2].
Qed.

(** The callbacks of the page write the selection and the highlight and
    nothing else. *)
Lemma fold_fire_frame (l : list Timer) (v : View) :
  pageTimers l ->
  showAddForm (fold_left fire l v) = showAddForm v
  /\ filterCategory (fold_left fire l v) = filterCategory v
  /\ showFavoritesOnly (fold_left fire l v) = showFavoritesOnly v
  /\ mapCenter (fold_left fire l v) = mapCenter v
  /\ mapZoom (fold_left fire l v) = mapZoom v
  /\ currentZoom (fold_left fire l v) = currentZoom v.
Proof.
  intros Hpage. revert v. induction Hpage as [|tm l' Htm _ IH]; intros v; simpl.
  - repeat split.
  - destruct (IH (fire v tm)) as (H1 & H2 & H3 & H4 & H5 & H6).
    rewrite H1, H2, H3, H4, H5, H6. unfold fire.
    remember (callback tm) as cb. destruct Htm; repeat split.
Qed.

(** They never set a highlight ... *)
Lemma fold_fire_highlight_cases (l : list Timer) (v : View) :
  pageTimers l ->
  highlightedPlace (fold_left fire l v) = None
  \/ highlightedPlace (fold_left fire l v) = highlightedPlace v.
Proof.
  intros Hpage. revert v. induction Hpage as [|tm l' Htm _ IH]; intros v; simpl.
  - now right.
  - destruct (IH (fire v tm)) as [H | H]; [now left|].
    rewrite H. unfold fire.
    remember (callback tm) as cb. destruct Htm; simpl; auto.
Qed.

(** ... and clear it when one of them is the deferred reveal. *)
Lemma fold_fire_highlight_none (l : list Timer) (v : View) :
  pageTimers l ->
  highlightedPlace v = None
  \/ (exists d p, In (mkTimer d (revealPlace p)) l) ->
  highlightedPlace (fold_left fire l v) = None.
Proof.
  intros Hpage. revert v. induction Hpage as [|tm l' Htm _ IH]; intros v; simpl.
  - intros [H | (d & p & [])]. exact H.
  - intros [H | (d & p & [-> | Hin])].
    + apply IH. left. unfold fire.
      remember (callback tm) as cb. destruct Htm; simpl; [reflexivity | exact H].
    + apply IH. left. reflexivity.
    + apply IH. right. eauto.
Qed.

(** ** The invariant of the page *)

Lemma buttonCategory_inj (b b' : FilterButton) :
  buttonCategory b = buttonCategory b' -> b = b'.
Proof. destruct b, b'; simpl; intros H; try reflexivity; discriminate H. Qed.

Lemma initialWorld_invariant (store : list Place) :
  pageInvariant (initialWorld store).
Proof.
  constructor; simpl.
  - reflexivity.
  - now exists AllButton.
  - now left.
  - constructor.
  - constructor.
  - discriminate.
  - intros b pad [].
Qed.

(** An event that leaves the clock and the timers alone, and of the view
    writes at most the form flag, the category (to a button's), the
    selection and the shown zoom, keeps the invariant, provided it
    makes no [fitBounds] call. *)
Lemma invariant_frame (w w' : World) :
  pageInvariant w ->
  showFavoritesOnly (view w') = showFavoritesOnly (view w) ->
  (exists b, filterCategory (view w') = buttonCategory b) ->
  mapCenter (view w') = mapCenter (view w) ->
  mapZoom (view w') = mapZoom (view w) ->
  highlightedPlace (view w') = highlightedPlace (view w) ->
  timers w' = timers w -> now w' = now w ->
  (forall b pad, In (FitBounds b pad) (calls w') -> In (FitBounds b pad) (calls w)) ->
  pageInvariant w'.
Proof.
  intros [Hf Hc Ht Ho Htm Hh Hfit] Ef Ec Em Ez Eh Et En Ecalls.
  constructor.
  - now rewrite Ef.
  - exact Ec.
  - unfold targetConsistent. now rewrite Em, Ez.
  - now rewrite Et.
  - now rewrite Et, En.
  - rewrite Eh, Et. exact Hh.
  - intros b pad Hin. exact (Hfit b pad (Ecalls b pad Hin)).
Qed.

Lemma Forall_enqueue (P : Timer -> Prop) (tm : Timer) (q : list Timer) :
  P tm -> List.Forall P q -> List.Forall P (enqueue tm q).
Proof.
  intros Htm Hq. apply List.Forall_forall. intros x Hx.
  apply In_enqueue in Hx. destruct Hx as [-> | Hx]; [exact Htm|].
  revert x Hx. now apply List.Forall_forall.
Qed.

Lemma handleSearchSelect_invariant (w : World) (p : Place) :
  pageInvariant w -> pageInvariant (handleSearchSelect p w).
Proof.
  intros [Hf Hc Ht Ho Htm Hh Hfit]. constructor.
  - exact Hf.
  - exact Hc.
  - right. simpl. eauto.
  - rewrite handleSearchSelect_timers. now apply enqueue_firingOrder.
  - rewrite handleSearchSelect_timers, handleSearchSelect_now.
    apply Forall_enqueue; [|exact Htm]. simpl. split; [lia | constructor].
  - simpl highlightedPlace. intros p' [= <-].
    exists (now w + 1500). rewrite handleSearchSelect_timers.
    apply In_enqueue. now left.
  - exact Hfit.
Qed.

Lemma handlePlaceAdded_invariant (w : World) (p : Place) :
  pageInvariant w -> pageInvariant (handlePlaceAdded p w).
Proof.
  intros [Hf Hc Ht Ho Htm Hh Hfit]. constructor.
  - exact Hf.
  - exact Hc.
  - right. simpl. eauto.
  - rewrite handlePlaceAdded_timers. now apply enqueue_firingOrder.
  - rewrite handlePlaceAdded_timers, handlePlaceAdded_now.
    apply Forall_enqueue; [|exact Htm]. simpl. split; [lia | constructor].
  - simpl highlightedPlace. intros p' Hp'. destruct (Hh p' Hp') as [d Hd].
    exists d. rewrite handlePlaceAdded_timers. apply In_enqueue. now right.
  - simpl calls. intros b pad Hin. apply in_app_or in Hin.
    destruct Hin as [Hin | [Hin | []]]; [exact (Hfit b pad Hin) | discriminate Hin].
Qed.

Lemma invariant_pageTimers (w : World) :
  pageInvariant w -> pageTimers (timers w).
Proof.
  intros H. eapply List.Forall_impl; [|exact (inv_timers w H)].
  simpl. tauto.
Qed.

Lemma elapse_invariant (w : World) (dt : nat) :
  pageInvariant w -> pageInvariant (elapse dt w).
Proof.
  intros Hinv. pose proof Hinv as [Hf Hc Ht Ho Htm Hh Hfit].
  assert (Hfired : pageTimers (dueTimers (now w + dt) (timers w))).
  { apply List.Forall_forall. intros x Hx. apply In_dueTimers in Hx.
    revert x Hx. apply List.Forall_forall. now apply invariant_pageTimers. }
  destruct (fold_fire_frame _ (view w) Hfired) as (_ & Hcat & Hfav & Hcen & Hzoom & _).
  constructor.
  - rewrite elapse_view, Hfav. exact Hf.
  - rewrite elapse_view, Hcat. exact Hc.
  - unfold targetConsistent. rewrite elapse_view, Hcen, Hzoom. exact Ht.
  - rewrite elapse_timers. now apply pendingTimers_firingOrder.
  - rewrite elapse_timers, elapse_now.
    pose proof (pendingTimers_later (now w + dt) _ Ho) as Hlater.
    apply List.Forall_forall. intros x Hx.
    pose proof (proj1 (List.Forall_forall _ _) Hlater x Hx) as Hx1.
    apply In_pendingTimers in Hx.
    pose proof (proj1 (List.Forall_forall _ _) Htm x Hx) as [Hx2 Hx3].
    simpl in *. split; [lia | exact Hx3].
  - rewrite elapse_view, elapse_timers. intros p Hp.
    destruct (fold_fire_highlight_cases _ (view w) Hfired) as [Hn | Hsame];
      [congruence|].
    rewrite Hsame in Hp. destruct (Hh p Hp) as [d Hd].
    exists d. rewrite (dueTimers_pendingTimers (now w + dt) (timers w)) in Hd.
    apply in_app_or in Hd. destruct Hd as [Hd | Hd]; [|exact Hd].
    exfalso.
    assert (Hnone : highlightedPlace
                      (fold_left fire (dueTimers (now w + dt) (timers w)) (view w))
                    = None)
      by (apply fold_fire_highlight_none; [exact Hfired | right; eauto]).
    rewrite Hsame in Hnone. congruence.
  - exact Hfit.
Qed.

Lemma handleNthMarkerClick_select (w : World) (n : nat) :
  handleNthMarkerClick n w =
  match filteredPlaces w !! n with
  | Some place => handleMarkerClick place w
  | None => w
  end.
Proof.
  unfold handleNthMarkerClick, markers. rewrite list_lookup_fmap.
  destruct (filteredPlaces w !! n); reflexivity.
Qed.

Ltac keep_calls :=
  simpl; intros ? ? Hin;
  first [ exact Hin
        | apply in_app_or in Hin;
          destruct Hin as [Hin | [Hin | []]]; [exact Hin | discriminate Hin] ].

Ltac keep_frame Hinv :=
  eapply invariant_frame;
  [ exact Hinv | reflexivity
  | first [ exact (inv_category _ Hinv) | eexists; reflexivity ]
  | reflexivity | reflexivity | reflexivity | reflexivity | reflexivity
  | keep_calls ].

(** Every event keeps the invariant. *)
Lemma step_invariant (e : Event) (w : World) :
  pageInvariant w -> pageInvariant (step e w).
Proof.
  intros Hinv. destruct e; simpl step.
  - keep_frame Hinv.
  - keep_frame Hinv.
  - now apply handlePlaceAdded_invariant.
  - now apply handleSearchSelect_invariant.
  - keep_frame Hinv.
  - rewrite handleNthMarkerClick_select.
    destruct (filteredPlaces w !! n); [|exact Hinv].
    keep_frame Hinv.
  - keep_frame Hinv.
  - keep_frame Hinv.
  - unfold mutationSettled.
    destruct (remoteUpdate _ _ _); [|exact Hinv].
    keep_frame Hinv.
  - keep_frame Hinv.
  - keep_frame Hinv.
  - keep_frame Hinv.
  - keep_frame Hinv.
  - now apply elapse_invariant.
Qed.

Lemma run_invariant (events : list Event) (w : World) :
  pageInvariant w -> pageInvariant (run events w).
Proof.
  revert w. induction events as [|e events IH]; intros w Hinv; simpl.
  - exact Hinv.
  - apply IH. now apply step_invariant.
Qed.

Lemma reachable_invariant (events : list Event) (store : list Place) :
  pageInvariant (run events (initialWorld store)).
Proof. apply run_invariant, initialWorld_invariant. Qed.

(** ** What holds in every state of the running page *)

Lemma visiblePlaces_favorites_off (c : string) (L : list Place) :
  visiblePlaces c false L = List.filter (categoryMatch c) L.
Proof.
  unfold visiblePlaces. induction L as [|p L IH]; simpl; [reflexivity|].
  unfold placeVisible at 1, favoriteMatch. simpl. rewrite andb_true_r.
  now rewrite IH.
Qed.

Lemma filter_categoryMatch_all (L : list Place) :
  List.filter (categoryMatch "all") L = L.
Proof.
  induction L as [|p L IH]; simpl; [reflexivity|]. now rewrite IH.
Qed.

(** X1: no control of the page calls [setShowFavoritesOnly], so after
    any sequence of events the favorites filter is off: the visible
    places are the cached places of the chosen category, favorites or
    not, and all cached places while the category is ["all"], the
    header then counting every cached place. *)
Theorem favorites_filter_never_on (events : list Event) (store : list Place) :
  let w := run events (initialWorld store) in
  showFavoritesOnly (view w) = false
  /\ filteredPlaces w = List.filter (categoryMatch (filterCategory (view w))) (places w)
  /\ (forall p, In p (places w) -> category p = filterCategory (view w) ->
                In p (filteredPlaces w))
  /\ (filterCategory (view w) = "all" ->
      filteredPlaces w = places w /\ placesCount w = length (places w)).
Proof.
  intros w. pose proof (reachable_invariant events store) as Hinv. fold w in Hinv.
  pose proof (inv_favorites w Hinv) as Hfav.
  assert (Hfilter : filteredPlaces w
                    = List.filter (categoryMatch (filterCategory (view w))) (places w)).
  { unfold filteredPlaces. rewrite Hfav. apply visiblePlaces_favorites_off. }
  split; [exact Hfav|]. split; [exact Hfilter|]. split.
  - intros p Hin Hcat. rewrite Hfilter. apply filter_In. split; [exact Hin|].
    apply categoryMatch_spec. now right.
  - intros Hall. unfold placesCount. rewrite Hfilter, Hall.
    now rewrite filter_categoryMatch_all.
Qed.

(** X1, after the cafe button is clicked on the loaded sample page and
    the bar, no favorite, is toggled. *)
Lemma favorites_filter_never_on_witness :
  In placeCafe
     (filteredPlaces
        (run [QuerySettled; FilterClick CafesButton; ToggleSent placeBar]
             (initialWorld [placeBar; placeCafe]))).
Proof.
  destruct (favorites_filter_never_on
              [QuerySettled; FilterClick CafesButton; ToggleSent placeBar]
              [placeBar; placeCafe]) as (_ & _ & Hin & _).
  apply Hin; [left; reflexivity | reflexivity].
Defined.

(** X2: after any sequence of events exactly one of the six category
    buttons is drawn as active (background [#536E66], text [#C5D6D2]),
    and right after a click on a button it is that button. *)
Theorem one_filter_button_active
  (events : list Event) (store : list Place) (clicked : FilterButton) :
  let w := run events (initialWorld store) in
  (exists b, forall b',
      (backgroundColor (filterButtonStyle (filterCategory (view w)) b') = "#536E66"
       <-> b' = b)
      /\ (color (filterButtonStyle (filterCategory (view w)) b') = "#C5D6D2"
          <-> b' = b))
  /\ (forall b',
        backgroundColor
          (filterButtonStyle (filterCategory (view (step (FilterClick clicked) w))) b')
        = "#536E66" <-> b' = clicked).
Proof.
  intros w.
  assert (Hactive : forall c b b', c = buttonCategory b ->
            (backgroundColor (filterButtonStyle c b') = "#536E66" <-> b' = b)
            /\ (color (filterButtonStyle c b') = "#C5D6D2" <-> b' = b)).
  { intros c b b' ->. simpl.
    destruct (String.eqb (buttonCategory b) (buttonCategory b')) eqn:E.
    - apply String.eqb_eq, buttonCategory_inj in E. subst b'. tauto.
    - apply String.eqb_neq in E.
      split; (split; [discriminate | intros ->; contradiction]). }
  split.
  - destruct (inv_category w (reachable_invariant events store)) as [b Hb].
    exists b. intros b'. now apply Hactive.
  - intros b'. now apply Hactive.
Qed.

(** X3: whatever has happened, 1.5 s without another event leave no
    callback pending and no place highlighted. *)
Theorem page_settles_within_delay (events : list Event) (store : list Place) :
  let w := run events (initialWorld store) in
  timers (elapse 1500 w) = []
  /\ highlightedPlace (view (elapse 1500 w)) = None.
Proof.
  intros w. pose proof (reachable_invariant events store) as Hinv. fold w in Hinv.
  assert (Hdue : List.Forall (fun x => due x <= now w + 1500) (timers w)).
  { eapply List.Forall_impl; [|exact (inv_timers w Hinv)]. simpl. intros; lia. }
  destruct (dueTimers_all _ _ Hdue) as [Hall Hnone].
  rewrite elapse_timers, elapse_view, Hall, Hnone. split; [reflexivity|].
  apply fold_fire_highlight_none; [now apply invariant_pageTimers|].
  destruct (highlightedPlace (view w)) as [p|] eqn:Hp; [right | now left].
  destruct (inv_highlight w Hinv p Hp) as [d Hd]. eauto.
Qed.

(** X4: [handleRecenter] is wired to no control, so after any sequence
    of events the page has made no [fitBounds] call. *)
Theorem fitBounds_never_called
  (events : list Event) (store : list Place) (b : LatLngBounds) (pad : Z * Z) :
  ~ In (FitBounds b pad) (calls (run events (initialWorld store))).
Proof. apply inv_fitBounds, reachable_invariant. Qed.

(** X5: after any sequence of events the viewport target is either
    unset, and [MapController] does not fly, or set to a center with
    zoom 15 or 16, and [MapController] flies there in 1.5 s with ease
    linearity 0.25; and no event unsets a target that is set. *)
Theorem viewport_target_set_together
  (events : list Event) (store : list Place) (e : Event) :
  let w := run events (initialWorld store) in
  match mapCenter (view w) with
  | None =>
      mapZoom (view w) = None
      /\ mapControllerFlyTo (mapCenter (view w)) (mapZoom (view w)) = None
  | Some c =>
      exists z, (z = 15%Q \/ z = 16%Q) /\ mapZoom (view w) = Some z
                /\ mapControllerFlyTo (mapCenter (view w)) (mapZoom (view w))
                   = Some (mkFlyTo c z (15 # 10) (25 # 100))
                /\ mapCenter (view (step e w)) <> None
  end.
Proof.
  intros w. pose proof (reachable_invariant events store) as Hinv. fold w in Hinv.
  pose proof (step_invariant e w Hinv) as Hnext.
  destruct (inv_target w Hinv) as [[Hc Hz] | (c & Hc & Hz)].
  - rewrite Hc, Hz. now split.
  - rewrite Hc.
    assert (Hstay : mapCenter (view (step e w)) <> None).
    { destruct e; simpl; try (rewrite Hc; discriminate); try discriminate.
      - rewrite handleNthMarkerClick_select.
        destruct (filteredPlaces w !! n); simpl; rewrite Hc; discriminate.
      - unfold mutationSettled. destruct (remoteUpdate _ _ _); simpl;
          rewrite Hc; discriminate.
      - destruct (fold_fire_frame (dueTimers (now w + dt) (timers w)) (view w))
          as (_ & _ & _ & Hcen & _).
        + apply List.Forall_forall. intros x Hx. apply In_dueTimers in Hx.
          revert x Hx. apply List.Forall_forall. now apply invariant_pageTimers.
        + rewrite Hcen, Hc. discriminate. }
    destruct Hz as [Hz | Hz]; rewrite Hz.
    + exists 15%Q. repeat split; auto.
    + exists 16%Q. repeat split; auto.
Qed.

(** ** Markers *)

Lemma categoryColors_truthy (cat s : string) :
  categoryColors !! cat = Some s -> truthy (JsString s) = true.
Proof.
  unfold categoryColors. intros H.
  rewrite !lookup_insert, lookup_empty in H.
  repeat (case_decide; [injection H as <-; reflexivity|]).
  discriminate H.
Qed.

(** X6: for a category that is not the name of a member of
    [Object.prototype], the marker's color is the category's own color
    if [categoryColors] maps it and [#6b7280] otherwise; and whatever
    the category, a name of a member of [Object.prototype] too, the
    icon is 16 by 21 below zoom 13 and 32 by 42 from zoom 13 on,
    anchored at the middle of its bottom edge, the popup opening above
    it. *)
Theorem markerIcon_plain_category (cat : string) (z : number) :
  (~ In cat objectPrototypeKeys ->
     markerColor cat = JsString (default "#6b7280" (categoryColors !! cat))
     /\ (~ In cat mappedCategories -> markerColor cat = JsString "#6b7280"))
  /\ ((z < 13)%Q ->
        iconSize (markerIcon cat z) = (16, 21)%Z
        /\ iconAnchor (markerIcon cat z) = (8, 21)%Z
        /\ popupAnchor (markerIcon cat z) = (0, -21)%Z)
  /\ ((13 <= z)%Q ->
        iconSize (markerIcon cat z) = (32, 42)%Z
        /\ iconAnchor (markerIcon cat z) = (16, 42)%Z
        /\ popupAnchor (markerIcon cat z) = (0, -42)%Z).
Proof.
  split.
  - intros Hplain. split.
    + unfold markerColor, getProperty.
      destruct (categoryColors !! cat) as [s|] eqn:E; simpl.
      * unfold orElse. now rewrite (categoryColors_truthy cat s E).
      * rewrite bool_decide_eq_false_2; [reflexivity|].
        intros Hin. apply Hplain. now apply list_elem_of_In.
    + intros Hunmapped. now apply markerColor_unmapped.
  - apply createIcon_size_tier.
Qed.

(** X6, at a category the colors do not map and zoom 12, and at the
    category ["constructor"] and zoom 14. *)
Lemma markerIcon_plain_category_witness :
  markerColor "museum" = JsString "#6b7280"
  /\ iconSize (markerIcon "museum" 12%Q) = (16, 21)%Z
  /\ iconSize (markerIcon "constructor" 14%Q) = (32, 42)%Z.
Proof.
  assert (Hplain : ~ In "museum" objectPrototypeKeys).
  { simpl. intros H. repeat (destruct H as [H | H]; [discriminate H|]). exact H. }
  assert (Hunmapped : ~ In "museum" mappedCategories).
  { simpl. intros H. repeat (destruct H as [H | H]; [discriminate H|]). exact H. }
  assert (Hz : (12 < 13)%Q) by reflexivity.
  assert (Hz' : (13 <= 14)%Q) by discriminate.
  destruct (markerIcon_plain_category "museum" 12%Q) as (Hc & Hsmall & _).
  destruct (markerIcon_plain_category "constructor" 14%Q) as (_ & _ & Hlarge).
  split; [exact (proj2 (Hc Hplain) Hunmapped)|].
  split; [exact (proj1 (Hsmall Hz)) | exact (proj1 (Hlarge Hz'))].
Defined.

Lemma markers_keys (w : World) : map key (markers w) = map id (filteredPlaces w).
Proof. unfold markers. rewrite map_map. reflexivity. Qed.

(** X7: the page draws one marker per visible place, as many as the
    header counts; the [n]-th marker carries the id, the coordinates and
    the icon of the [n]-th visible place, a cached place, and a click
    on it selects that place; when the cached places have distinct
    ids, the markers have distinct keys. *)
Theorem markers_stand_for_visible_places (w : World) :
  length (markers w) = placesCount w
  /\ (NoDup (map id (places w)) -> NoDup (map key (markers w)))
  /\ forall n m, markers w !! n = Some m ->
       exists place,
         filteredPlaces w !! n = Some place
         /\ In place (places w)
         /\ key m = id place /\ dataPlaceId m = id place
         /\ position m = (latitude place, longitude place)
         /\ icon m = markerIcon (category place) (currentZoom (view w))
         /\ selectedPlace (view (click m w)) = Some place.
Proof.
  split; [|split].
  - unfold markers, placesCount. apply length_map.
  - intros Hids. rewrite markers_keys. eapply sublist_NoDup; [exact Hids|].
    apply fmap_sublist. unfold filteredPlaces. apply visiblePlaces_sublist.
  - intros n m Hm. unfold markers in Hm. rewrite list_lookup_fmap in Hm.
    destruct (filteredPlaces w !! n) as [place|] eqn:Hn; [|discriminate Hm].
    injection Hm as <-. exists place. split; [reflexivity|]. split.
    + apply list_elem_of_lookup_2, list_elem_of_In in Hn.
      unfold filteredPlaces, visiblePlaces in Hn. now apply filter_In in Hn.
    + repeat split.
Qed.

(** X7, on the loaded sample page, and on a page whose cache holds the
    cafe twice. *)
Lemma markers_stand_for_visible_places_witness :
  length (markers worldLoaded) = 2
  /\ NoDup (map key (markers worldLoaded))
  /\ length (markers (setQuery (mkQuery (Some [placeCafe; placeCafe]) false)
                               worldLoaded)) = 2.
Proof.
  assert (Hids : NoDup (map id (places worldLoaded))).
  { simpl. apply NoDup_cons. split; [|apply NoDup_singleton].
    intros H. apply list_elem_of_In in H. destruct H as [H | []]. discriminate H. }
  destruct (markers_stand_for_visible_places worldLoaded) as (Hlen & Hkeys & _).
  destruct (markers_stand_for_visible_places
              (setQuery (mkQuery (Some [placeCafe; placeCafe]) false) worldLoaded))
    as (Hlen' & _).
  split; [exact Hlen|]. split; [exact (Hkeys Hids) | exact Hlen'].
Defined.

(** X8: when the map reports a zoom level at the end of a zoom, the
    markers stay the same in number, keys and positions, and every one
    of them is redrawn in the size of that level: 16 by 21 below 13,
    32 by 42 from 13 on. *)
Theorem zoomend_resizes_every_marker (w : World) (z : number) :
  let w' := updateZoom z w in
  map key (markers w') = map key (markers w)
  /\ map position (markers w') = map position (markers w)
  /\ ((z < 13)%Q -> forall m, In m (markers w') -> iconSize (icon m) = (16, 21)%Z)
  /\ ((13 <= z)%Q -> forall m, In m (markers w') -> iconSize (icon m) = (32, 42)%Z).
Proof.
  intros w'.
  assert (Hicon : forall m, In m (markers w') ->
            exists c, icon m = createIcon c (Some z)).
  { intros m Hm. unfold markers in Hm. apply in_map_iff in Hm.
    destruct Hm as (place & <- & _). simpl. eauto. }
  split; [|split; [|split]].
  - unfold markers. rewrite !map_map. reflexivity.
  - unfold markers. rewrite !map_map. reflexivity.
  - intros Hz m Hm. destruct (Hicon m Hm) as [c ->].
    now apply createIcon_size_tier.
  - intros Hz m Hm. destruct (Hicon m Hm) as [c ->].
    now apply createIcon_size_tier.
Qed.

(** X8, on the loaded sample page zoomed in to level 16. *)
Lemma zoomend_resizes_every_marker_witness :
  List.Forall (fun m => iconSize (icon m) = (32, 42)%Z)
              (markers (updateZoom 16%Q worldLoaded)).
Proof.
  assert (Hz : (13 <= 16)%Q) by discriminate.
  destruct (zoomend_resizes_every_marker worldLoaded 16%Q) as (_ & _ & _ & Hlarge).
  apply List.Forall_forall. exact (Hlarge Hz).
Defined.

(** ** Deferred selections and what happens meanwhile *)



Lemma toggle_patch_idempotent (p q : Place) :
  (fun q => if String.eqb (id q) (id p) then applyPatch (toggleData p) q else q)
    (if String.eqb (id q) (id p) then applyPatch (toggleData p) q else q)
  = if String.eqb (id q) (id p) then applyPatch (toggleData p) q else q.
Proof.
  simpl. destruct (String.eqb (id q) (id p)) eqn:E.
  - simpl. rewrite E. reflexivity.
  - now rewrite E.
Qed.

(** X10: the update that a toggle sends is computed from the place it is
    called with, not from the cache.  Two toggles with the same place
    value, as from a card that still shows the old snapshot, send the
    same update twice, each followed by an invalidation; the second
    leaves the store as the first left it, every stored place of that
    id carrying the negation of the snapshot's flag: the second toggle
    does not undo the first. *)
Theorem toggle_twice_same_snapshot (w : World) (p : Place)
  (Hstored : exists r, In r (remote w) /\ id r = id p) :
  let once := handleToggleFavorite p w in
  let twice := handleToggleFavorite p once in
  calls twice =
    (calls w ++ [PlaceUpdate (id p) (toggleData p); InvalidateQueries ["places"];
                 PlaceUpdate (id p) (toggleData p); InvalidateQueries ["places"]])%list
  /\ remote twice = remote once
  /\ (forall r, In r (remote twice) -> id r = id p ->
                is_favorite r = negb (is_favorite p))
  /\ view twice = view w.
Proof.
  intros once twice.
  pose proof (remoteUpdate_found (id p) (toggleData p) (remote w) Hstored) as Hup.
  pose proof (handleToggleFavorite_success w p _ Hup) as Honce. fold once in Honce.
  set (f := fun q => if String.eqb (id q) (id p)
                     then applyPatch (toggleData p) q else q) in *.
  assert (Hstored' : exists r, In r (remote once) /\ id r = id p).
  { destruct Hstored as (r & Hin & Hid). exists (f r). rewrite Honce. simpl. split.
    - now apply in_map.
    - unfold f. destruct (String.eqb (id r) (id p)); simpl; exact Hid. }
  pose proof (remoteUpdate_found (id p) (toggleData p) (remote once) Hstored') as Hup'.
  fold f in Hup'.
  assert (Hidem : map f (remote once) = remote once).
  { rewrite Honce. simpl. rewrite map_map. apply map_ext.
    intros q. apply toggle_patch_idempotent. }
  rewrite Hidem in Hup'.
  pose proof (handleToggleFavorite_success once p _ Hup') as Htwice.
  fold twice in Htwice.
  split; [|split; [|split]].
  - rewrite Htwice, Honce. simpl. rewrite <- !app_assoc. reflexivity.
  - now rewrite Htwice.
  - intros r Hin Hid. rewrite Htwice in Hin. simpl in Hin.
    rewrite Honce in Hin. simpl in Hin.
    apply in_map_iff in Hin. destruct Hin as (r0 & <- & _).
    unfold f in *. destruct (String.eqb (id r0) (id p)) eqn:E; [reflexivity|].
    apply String.eqb_neq in E. contradiction.
  - rewrite Htwice. simpl. now rewrite Honce.
Qed.

(** X10, on the loaded sample page: the cafe, a favorite, is toggled
    twice from the same snapshot and is no favorite in the store. *)
Lemma toggle_twice_same_snapshot_witness :
  remote (handleToggleFavorite placeCafe (handleToggleFavorite placeCafe worldLoaded))
  = remote (handleToggleFavorite placeCafe worldLoaded)
  /\ List.Forall (fun r => id r = "2" -> is_favorite r = false)
                 (remote (handleToggleFavorite placeCafe
                            (handleToggleFavorite placeCafe worldLoaded))).
Proof.
  assert (Hstored : exists r, In r (remote worldLoaded) /\ id r = id placeCafe).
  { exists placeCafe. split; [right; left; reflexivity | reflexivity]. }
  destruct (toggle_twice_same_snapshot worldLoaded placeCafe Hstored)
    as (_ & Hsame & Hflag & _).
  split; [exact Hsame|]. apply List.Forall_forall. exact Hflag.
Defined.

(** X11: the callback of a search-select clears whatever highlight is
    there.  When a second search-select (of [q]) comes [dt] ms after a
    first one, [0 < dt < 1500], [q] is highlighted at once, but 1.5 s
    after the first search-select the first callback clears that
    highlight, [dt] ms before [q]'s own callback, still pending, is
    due. *)
Theorem second_highlight_cut_short (w : World) (p q : Place) (dt : nat)
  (Hpos : 0 < dt) (Hlt : dt < 1500) :
  let w2 := handleSearchSelect q (elapse dt (handleSearchSelect p w)) in
  highlightedPlace (view w2) = Some q
  /\ highlightedPlace (view (elapse (1500 - dt) w2)) = None
  /\ In (mkTimer (now w + dt + 1500) (revealPlace q))
        (timers (elapse (1500 - dt) w2)).
Proof.
  intros w2.
  set (first := mkTimer (now w + 1500) (revealPlace p)).
  set (second := mkTimer (now w + dt + 1500) (revealPlace q)).
  destruct (deferred_pending (handleSearchSelect p w) first (timers w) dt)
    as [_ Hq1]; [reflexivity | simpl; lia |].
  assert (Hq2 : timers w2
                = enqueue first (enqueue second
                    (pendingTimers (now w + dt) (timers w)))).
  { subst w2. rewrite handleSearchSelect_timers, elapse_now, handleSearchSelect_now.
    rewrite Hq1, handleSearchSelect_now. fold second.
    symmetry. apply enqueue_comm. simpl. lia. }
  destruct (deferred_fires w2 first _ (1500 - dt) Hq2) as [Hview Htimers].
  { change (now w2) with (now w + dt). simpl. lia. }
  split; [reflexivity|]. split.
  - rewrite Hview. reflexivity.
  - rewrite Htimers, pendingTimers_enqueue_before by (simpl; lia).
    apply In_enqueue. now left.
Qed.

(** X11, on the loaded sample page: the cafe is searched 500 ms after
    the bar. *)
Lemma second_highlight_cut_short_witness :
  highlightedPlace
    (view (elapse 1000 (handleSearchSelect placeCafe
                          (elapse 500 (handleSearchSelect placeBar worldLoaded)))))
  = None.
Proof.
  assert (H0 : 0 < 500) by lia.
  assert (H1 : 500 < 1500) by lia.
  destruct (second_highlight_cut_short worldLoaded placeBar placeCafe 500 H0 H1)
    as (_ & Hnone & _).
  exact Hnone.
Defined.

(** X12: a deferred selection is not cancelled by what the user does
    meanwhile.  When, [dt] ms after a search-select of [p], [dt < 1500],
    the user clicks the marker of [q] or closes the card, the selection
    is [q], or none, at once, and 1.5 s after the search-select the
    callback makes it [p] all the same; likewise the selection of a
    newly added place arrives 800 ms after the add, whatever was
    selected or closed meanwhile. *)
Theorem deferred_selection_overrides_user (w : World) (p q : Place) (dt dt' : nat)
  (Hlt : dt < 1500) (Hlt' : dt' < 800) :
  let clicked := handleMarkerClick q (elapse dt (handleSearchSelect p w)) in
  let closed := handleCloseCard (elapse dt (handleSearchSelect p w)) in
  let clicked' := handleMarkerClick q (elapse dt' (handlePlaceAdded p w)) in
  let closed' := handleCloseCard (elapse dt' (handlePlaceAdded p w)) in
  selectedPlace (view clicked) = Some q
  /\ selectedPlace (view (elapse (1500 - dt) clicked)) = Some p
  /\ selectedPlace (view closed) = None
  /\ selectedPlace (view (elapse (1500 - dt) closed)) = Some p
  /\ selectedPlace (view clicked') = Some q
  /\ selectedPlace (view (elapse (800 - dt') clicked')) = Some p
  /\ selectedPlace (view closed') = None
  /\ selectedPlace (view (elapse (800 - dt') closed')) = Some p.
Proof.
  intros clicked closed clicked' closed'.
  destruct (deferred_pending (handleSearchSelect p w)
              (mkTimer (now w + 1500) (revealPlace p)) (timers w) dt)
    as [_ Hq]; [reflexivity | simpl; lia |].
  destruct (deferred_pending (handlePlaceAdded p w)
              (mkTimer (now w + 800) (setSelectedPlace (Some p))) (timers w) dt')
    as [_ Hq']; [reflexivity | simpl; lia |].
  assert (Ht : now w + dt + (1500 - dt) = now w + 1500) by lia.
  assert (Ht' : now w + dt' + (800 - dt') = now w + 800) by lia.
  repeat match goal with |- _ /\ _ => split end; try reflexivity.
  - destruct (deferred_fires clicked _ _ (1500 - dt) Hq Ht) as [-> _]. reflexivity.
  - destruct (deferred_fires closed _ _ (1500 - dt) Hq Ht) as [-> _]. reflexivity.
  - destruct (deferred_fires clicked' _ _ (800 - dt') Hq' Ht') as [-> _]. reflexivity.
  - destruct (deferred_fires closed' _ _ (800 - dt') Hq' Ht') as [-> _]. reflexivity.
Qed.

(** X12, on the loaded sample page: the bar is searched, the cafe's
    marker clicked 400 ms later. *)
Lemma deferred_selection_overrides_user_witness :
  selectedPlace
    (view (elapse 1100 (handleMarkerClick placeCafe
                          (elapse 400 (handleSearchSelect placeBar worldLoaded)))))
  = Some placeBar.
Proof.
  assert (H0 : 400 < 1500) by lia.
  assert (H1 : 0 < 800) by lia.
  destruct (deferred_selection_overrides_user worldLoaded placeBar placeCafe 400 0 H0 H1)
    as (_ & Hsel & _).
  exact Hsel.
Defined.

(** ** Before the first fetch *)

Lemma step_keeps_data (e : Event) (w : World) :
  e <> QuerySettled -> data (query (step e w)) = data (query w).
Proof.
  intros He. destruct e; simpl; try reflexivity.
  - rewrite handleNthMarkerClick_select. now destruct (filteredPlaces w !! n).
  - unfold mutationSettled. now destruct (remoteUpdate _ _ _).
  - contradiction.
Qed.

Lemma run_keeps_data (events : list Event) (w : World) :
  (forall e, In e events -> e <> QuerySettled) ->
  data (query (run events w)) = data (query w).
Proof.
  revert w. induction events as [|e events IH]; intros w Hpending; simpl.
  - reflexivity.
  - rewrite IH by (intros e' He'; apply Hpending; now right).
    apply step_keeps_data, Hpending. now left.
Qed.

(** X13: the cached list is taken as empty while the query has no data.
    Whatever the store holds and whatever else happens, until the query
    settles for the first time the page counts 0 places, draws no
    marker, so that a marker click cannot select anything, and has
    [\[40.7128, -74.0060\]] as the center to mount the map with. *)
Theorem nothing_visible_before_first_fetch
  (events : list Event) (store : list Place)
  (Hpending : forall e, In e events -> e <> QuerySettled) :
  let w := run events (initialWorld store) in
  places w = [] /\ placesCount w = 0 /\ markers w = []
  /\ (forall n, handleNthMarkerClick n w = w)
  /\ center (mapContainerProps w) = (407128 # 10000, - (740060 # 10000))%Q.
Proof.
  intros w.
  assert (Hdata : data (query w) = None).
  { subst w. now rewrite run_keeps_data. }
  assert (Hplaces : places w = []) by (unfold places; now rewrite Hdata).
  assert (Hvisible : filteredPlaces w = [])
    by (unfold filteredPlaces; now rewrite Hplaces).
  split; [exact Hplaces|]. split; [|split; [|split]].
  - unfold placesCount. now rewrite Hvisible.
  - unfold markers. now rewrite Hvisible.
  - intros n. rewrite handleNthMarkerClick_select, Hvisible. reflexivity.
  - unfold mapContainerProps, defaultCenter. simpl. now rewrite Hvisible.
Qed.

(** X13, over the sample store, after the bar button and a marker
    position are clicked while the first fetch is still under way. *)
Lemma nothing_visible_before_first_fetch_witness :
  placesCount (run [FilterClick BarButton; MarkerClick 0]
                   (initialWorld [placeBar; placeCafe])) = 0.
Proof.
  assert (Hpending : forall e, In e [FilterClick BarButton; MarkerClick 0] ->
                               e <> QuerySettled).
  { intros e [<- | [<- | []]]; discriminate. }
  destruct (nothing_visible_before_first_fetch
              [FilterClick BarButton; MarkerClick 0] [placeBar; placeCafe] Hpending)
    as (_ & Hcount & _).
  exact Hcount.
Defined.
